(** * EstimatedMSM: index mapping, trajectory reweighting and caches

    A shallow embedding of [pyemma/msm/estimators/estimated_msm.py]
    (class [EstimatedMSM]) together with the numpy operations its methods
    rest on, and the properties the specification states about them.

    Conventions.
    - State labels and indices are Python/numpy integers: [Z].
    - numpy [float64] values are IEEE binary64: Rocq's primitive [float].
    - A one-dimensional ndarray is a [list]; a two-dimensional one a list
      of rows.
    - A Python exception is a value of [exn]; a computation that may raise
      returns a [result]. *)

From Stdlib Require Import ZArith List Lia String Floats Bool.
From stdpp Require Import base list.
Import ListNotations.

Local Open Scope Z_scope.

(** ** Exceptions and results *)

(** The exceptions the modelled code can raise: the [assert] of
    [_check_is_estimated], numpy's out-of-bounds index, and numpy's
    shape errors (values that do not broadcast, ragged nested sequences).
    [InvalidStateError] and [DegenerateWeightsError] are the two errors the
    specification names for this part of the system; no line of
    [estimated_msm.py] raises them. *)
Inductive exn : Type :=
| AssertionError
| IndexError
| ValueError
| InvalidStateError
| DegenerateWeightsError.

Inductive result (A : Type) : Type :=
| Ok (a : A)
| Raise (e : exn).
Arguments Ok {A} a.
Arguments Raise {A} e.

Definition bindR {A B} (r : result A) (k : A -> result B) : result B :=
  match r with
  | Ok a => k a
  | Raise e => Raise e
  end.

Declare Scope res_scope.
Delimit Scope res_scope with res.
Notation "'do' x <- r ; k" := (bindR r (fun x => k))
  (at level 10, x name, r at level 99, k at level 200) : res_scope.
Local Open Scope res_scope.

Definition is_ok {A} (r : result A) : bool :=
  match r with Ok _ => true | Raise _ => false end.

(** [mapR f l]: apply [f] to every element, left to right, stopping at the
    first exception. *)
Fixpoint mapR {A B} (f : A -> result B) (l : list A) : result (list B) :=
  match l with
  | [] => Ok []
  | x :: l' =>
      do y <- f x;
      do ys <- mapR f l';
      Ok (y :: ys)
  end.

(** ** numpy operations *)

Module Np.

(** Index normalisation of numpy for an axis of length [n]: an index in
    [0, n) is itself, an index in [-n, 0) counts from the end, anything
    else raises [IndexError]. *)
Definition norm_index (n : nat) (i : Z) : result nat :=
  if (0 <=? i) && (i <? Z.of_nat n) then Ok (Z.to_nat i)
  else if (- Z.of_nat n <=? i) && (i <? 0) then Ok (Z.to_nat (i + Z.of_nat n))
  else Raise IndexError.

(** [a[i]] for an integer [i]. *)
Definition getitem {A} (a : list A) (i : Z) : result A :=
  do k <- norm_index (length a) i;
  match a !! k with
  | Some x => Ok x
  | None => Raise IndexError
  end.

(** [a[idx]] for an integer array [idx] (advanced indexing): a new array
    with one entry per index. *)
Definition take {A} (a : list A) (idx : list Z) : result (list A) :=
  mapR (getitem a) idx.

(** The values of [a[idx] = vals] broadcast to the shape of [idx]: equal
    lengths pair up, a single value is repeated, anything else is a
    shape mismatch. *)
Definition broadcast_to {A} (n : nat) (vals : list A) : result (list A) :=
  if Nat.eqb (length vals) n then Ok vals
  else match vals with
       | [v] => Ok (replicate n v)
       | _ => Raise ValueError
       end.

(** Writes of [a[idx] = vals] applied in index order (a repeated index
    keeps the last value written). *)
Fixpoint assign {A} (a : list A) (kvs : list (nat * A)) : list A :=
  match kvs with
  | [] => a
  | (k, v) :: kvs' => assign (<[k := v]> a) kvs'
  end.

(** [a[idx] = vals] for an integer array [idx]; the array is changed only
    when the values broadcast (checked first) and every index is in
    bounds. *)
Definition put {A} (a : list A) (idx : list Z) (vals : list A)
  : result (list A) :=
  do vs <- broadcast_to (length idx) vals;
  do ks <- mapR (norm_index (length a)) idx;
  Ok (assign a (zip ks vs)).

(** [np.array(list(range(n)), dtype=int)]: the integers [0 .. n-1]. *)
Definition arange (n : nat) : list Z := map Z.of_nat (seq 0 n).

(** Sum of a float array, added up in storage order. (numpy adds long
    arrays in blocks, which changes the rounding of the result and not
    the sum it approximates.) *)
Definition sum1 (w : list float) : float :=
  fold_left PrimFloat.add w 0%float.

(** Rows of one common length: what a list of arrays must be to convert
    to a two-dimensional array. *)
Definition is_rectangular {A} (W : list (list A)) : bool :=
  match W with
  | [] => true
  | w :: W' => forallb (fun w' => Nat.eqb (length w') (length w)) W'
  end.

(** [np.sum(W)] for a Python list [W] of one-dimensional float arrays.
    The list is first converted to an array: rows of one common length
    give a two-dimensional array, whose entries are all added up in
    row-major order; rows of different lengths are not an array, and the
    call raises [ValueError] (inhomogeneous shape; numpy before 1.24 built
    an array of row objects and added the rows to each other, a
    [ValueError] as well unless the rows broadcast, which is the one case
    not modelled). *)
Definition sum_list (W : list (list float)) : result float :=
  if is_rectangular W then Ok (sum1 (concat W)) else Raise ValueError.

End Np.

(** ** The model object *)

Definition matrix (A : Type) := list (list A).

(** The part of the superclass [MSM] the methods below read: the
    transition matrix handed to [MSM.__init__] and the stationary
    distribution on the active set that [MSM] derives from it. The
    superclass lives in [pyemma.msm.models.msm]; its stationary
    distribution is taken as given. *)
Record MSM : Type := {
  transition_matrix : matrix float;
  stationary_distribution : list float
}.

(** An index table: for each requested state the (trajectory, time) pairs
    of its frames. *)
Definition index_table := list (list (Z * Z)).

(** The attributes of an [EstimatedMSM] instance. The two attributes that
    are created after construction ([_dtrajs_active],
    [_active_state_indexes]) are [None] while the attribute does not
    exist. *)
Record EstimatedMSM : Type := {
  base : MSM;
  lag : Z;
  _connectivity : string;
  _active_set : list Z;
  _dtrajs_full : list (list Z);
  dt_traj : string;
  _C_full : matrix Z;
  _C_active : matrix Z;
  _connected_sets : list (list Z);
  _nstates_full : nat;
  _full2active : list Z;
  _is_estimated : bool;
  _dtrajs_active : option (list (list Z));
  _active_state_indexes : option index_table
}.

(** The arguments of the constructor, after the superclass constructor
    has run on [transition_matrix]. *)
Record init_args : Type := {
  arg_base : MSM;
  arg_dtrajs : list (list Z);
  arg_dt_traj : string;
  arg_lag : Z;
  arg_connectivity : string;
  arg_active_set : list Z;
  arg_connected_sets : list (list Z);
  arg_C_full : matrix Z;
  arg_C_active : matrix Z
}.

(** The full-to-active map of the constructor:
    [-1 * np.ones(nstates_full)], then
    [full2active[active_set] = range(len(active_set))]. *)
Definition build_full2active (nstates_full : nat) (active_set : list Z)
  : result (list Z) :=
  Np.put (replicate nstates_full (-1)) active_set
         (Np.arange (length active_set)).

(** [EstimatedMSM.__init__]: the arguments are stored (as copies), the
    number of full states is the number of rows of [C_full], and the
    full-to-active map is computed from the stored active set. *)
Definition __init__ (a : init_args) : result EstimatedMSM :=
  let nstates_full := length (arg_C_full a) in
  do full2active <- build_full2active nstates_full (arg_active_set a);
  Ok {| base := arg_base a;
        lag := arg_lag a;
        _connectivity := arg_connectivity a;
        _active_set := arg_active_set a;
        _dtrajs_full := arg_dtrajs a;
        dt_traj := arg_dt_traj a;
        _C_full := arg_C_full a;
        _C_active := arg_C_active a;
        _connected_sets := arg_connected_sets a;
        _nstates_full := nstates_full;
        _full2active := full2active;
        _is_estimated := true;
        _dtrajs_active := None;
        _active_state_indexes := None |}.

(** ** Accessors *)

Definition set_dtrajs_active (m : EstimatedMSM) (v : option (list (list Z)))
  : EstimatedMSM :=
  {| base := base m; lag := lag m; _connectivity := _connectivity m;
     _active_set := _active_set m; _dtrajs_full := _dtrajs_full m;
     dt_traj := dt_traj m; _C_full := _C_full m; _C_active := _C_active m;
     _connected_sets := _connected_sets m;
     _nstates_full := _nstates_full m; _full2active := _full2active m;
     _is_estimated := _is_estimated m;
     _dtrajs_active := v;
     _active_state_indexes := _active_state_indexes m |}.

Definition set_active_state_indexes (m : EstimatedMSM) (v : option index_table)
  : EstimatedMSM :=
  {| base := base m; lag := lag m; _connectivity := _connectivity m;
     _active_set := _active_set m; _dtrajs_full := _dtrajs_full m;
     dt_traj := dt_traj m; _C_full := _C_full m; _C_active := _C_active m;
     _connected_sets := _connected_sets m;
     _nstates_full := _nstates_full m; _full2active := _full2active m;
     _is_estimated := _is_estimated m;
     _dtrajs_active := _dtrajs_active m;
     _active_state_indexes := v |}.

(** [assert self._is_estimated]. *)
Definition _check_is_estimated (m : EstimatedMSM) : result unit :=
  if _is_estimated m then Ok tt else Raise AssertionError.

(** The read-only properties: the guard, then the stored attribute. *)
Definition lagtime (m : EstimatedMSM) : result Z := Ok (lag m).

Definition nstates_full (m : EstimatedMSM) : result nat :=
  do _ <- _check_is_estimated m; Ok (_nstates_full m).

Definition active_set (m : EstimatedMSM) : result (list Z) :=
  do _ <- _check_is_estimated m; Ok (_active_set m).

Definition connectivity (m : EstimatedMSM) : result string :=
  Ok (_connectivity m).

Definition largest_connected_set (m : EstimatedMSM) : result (list Z) :=
  do _ <- _check_is_estimated m; Np.getitem (_connected_sets m) 0.

Definition connected_sets (m : EstimatedMSM) : result (list (list Z)) :=
  do _ <- _check_is_estimated m; Ok (_connected_sets m).

Definition discrete_trajectories_full (m : EstimatedMSM)
  : result (list (list Z)) :=
  do _ <- _check_is_estimated m; Ok (_dtrajs_full m).

Definition count_matrix_active (m : EstimatedMSM) : result (matrix Z) :=
  do _ <- _check_is_estimated m; Ok (_C_active m).

Definition count_matrix_full (m : EstimatedMSM) : result (matrix Z) :=
  do _ <- _check_is_estimated m; Ok (_C_full m).

(** The loop of [discrete_trajectories_active]: [acc] is the list held by
    [self._dtrajs_active], which grows by one mapped trajectory per
    iteration; an exception leaves the list as far as it was built. *)
Fixpoint dtrajs_active_loop (full2active : list Z) (dtrajs : list (list Z))
    (acc : list (list Z)) : result (list (list Z)) * list (list Z) :=
  match dtrajs with
  | [] => (Ok acc, acc)
  | dtraj :: rest =>
      match Np.take full2active dtraj with
      | Ok mapped => dtrajs_active_loop full2active rest (acc ++ [mapped])
      | Raise e => (Raise e, acc)
      end
  end.

(** [discrete_trajectories_active]: recomputed on every access and stored
    in [self._dtrajs_active]. *)
Definition discrete_trajectories_active (m : EstimatedMSM)
  : result (list (list Z)) * EstimatedMSM :=
  match _check_is_estimated m with
  | Raise e => (Raise e, m)
  | Ok _ =>
      let '(r, acc) :=
        dtrajs_active_loop (_full2active m) (_dtrajs_full m) [] in
      (r, set_dtrajs_active m (Some acc))
  end.

(** The loop of [trajectory_weights]: [W] collects the unnormalised weight
    arrays, and after each append the total grows by [np.sum(W)], the sum
    over the whole list collected so far. *)
Fixpoint weights_loop (statdist_full : list float) (dtrajs : list (list Z))
    (W : list (list float)) (wtot : float)
  : result (list (list float) * float) :=
  match dtrajs with
  | [] => Ok (W, wtot)
  | dtraj :: rest =>
      do w <- Np.take statdist_full dtraj;
      let W' := W ++ [w] in
      do s <- Np.sum_list W';
      weights_loop statdist_full rest W' (wtot + s)%float
  end.

(** The stationary distribution expanded to the full set:
    [np.zeros(nstates_full)], then
    [statdist_full[active_set] = stationary_distribution]. *)
Definition statdist_full (m : EstimatedMSM) : result (list float) :=
  do aset <- active_set m;
  Np.put (replicate (_nstates_full m) 0%float) aset
         (stationary_distribution (base m)).

(** The first half of [trajectory_weights], up to the normalisation: the
    unnormalised weights and the total [wtot] they will be divided by. *)
Definition unnormalized_weights (m : EstimatedMSM)
  : result (list (list float) * float) :=
  do _ <- _check_is_estimated m;
  do sd <- statdist_full m;
  do dtrajs <- discrete_trajectories_full m;
  weights_loop sd dtrajs [] 0%float.

Definition grand_total (m : EstimatedMSM) : result float :=
  do Ww <- unnormalized_weights m; Ok (snd Ww).

(** [trajectory_weights]: every collected array is divided in place by
    [wtot]. *)
Definition trajectory_weights (m : EstimatedMSM)
  : result (list (list float)) :=
  do Ww <- unnormalized_weights m;
  Ok (map (map (fun x => (x / snd Ww)%float)) (fst Ww)).

(** The type of [pyemma.util.discrete_trajectories.index_states], the
    index builder [active_state_indexes] calls: from the trajectories and
    a subset of states to an index table, or an exception. *)
Definition index_builder :=
  list (list Z) -> list Z -> result index_table.

(** [active_state_indexes]: the attribute [_active_state_indexes] is
    returned when it exists; otherwise the table is built, stored in the
    attribute and returned. An exception of the builder leaves the
    attribute missing. *)
Definition active_state_indexes (index_states : index_builder)
  (m : EstimatedMSM) : result index_table * EstimatedMSM :=
  match _check_is_estimated m with
  | Raise e => (Raise e, m)
  | Ok _ =>
      match _active_state_indexes m with
      | Some table => (Ok table, m)
      | None =>
          let built :=
            do dtrajs <- discrete_trajectories_full m;
            do subset <- active_set m;
            index_states dtrajs subset in
          match built with
          | Ok table => (Ok table, set_active_state_indexes m (Some table))
          | Raise e => (Raise e, m)
          end
      end
  end.

(** ** Well-formed inputs (the data model of the specification) *)

(** An active set over a full space of [n] states: distinct labels, all in
    [0, n). (A strictly increasing sequence of labels in range is one.) *)
Definition valid_active_set (n : nat) (aset : list Z) : Prop :=
  NoDup aset /\ Forall (fun s => 0 <= s < Z.of_nat n) aset.

(** Trajectories over a full space of [n] states: every frame carries a
    label in [0, n). *)
Definition valid_dtrajs (n : nat) (dtrajs : list (list Z)) : Prop :=
  Forall (Forall (fun s => 0 <= s < Z.of_nat n)) dtrajs.

(** What the constructor establishes and every accessor keeps: the guard
    flag is set, the number of full states is the number of rows of the
    full count matrix, and the full-to-active map is the one built from
    the stored active set. *)
Definition constructed (m : EstimatedMSM) : Prop :=
  _is_estimated m = true /\
  _nstates_full m = length (_C_full m) /\
  build_full2active (_nstates_full m) (_active_set m) = Ok (_full2active m).

(** ** Submatrix *)

(** Modelled from the spec: [pyemma.util.linalg.submatrix] is not under
    src/. Section 6 describes it as submatrix extraction: from a matrix and
    an index subset to the square submatrix in subset order. The entry at
    row [i], column [j] of the result is the entry of the matrix at row
    [subset[i]], column [subset[j]]; indices are read as numpy reads
    them. *)
Definition submatrix {A} (C : matrix A) (subset : list Z) : result (matrix A) :=
  do rows <- Np.take C subset;
  mapR (fun row => Np.take row subset) rows.

(** ** The accessors as one family *)

Inductive accessor : Type :=
| Lagtime
| NstatesFull
| ActiveSet
| Connectivity
| LargestConnectedSet
| ConnectedSets
| DiscreteTrajectoriesFull
| DiscreteTrajectoriesActive
| CountMatrixActive
| CountMatrixFull
| TrajectoryWeights
| ActiveStateIndexes.

Inductive value : Type :=
| VInt (z : Z)
| VNat (n : nat)
| VStr (s : string)
| VArray (a : list Z)
| VArrays (a : list (list Z))
| VMatrix (c : matrix Z)
| VWeights (w : list (list float))
| VTable (t : index_table).

Definition mapResult {A B} (f : A -> B) (r : result A) : result B :=
  do a <- r; Ok (f a).

(** One access: the value returned (or the exception raised) and the
    attributes of the object afterwards. *)
Definition run_accessor (index_states : index_builder) (acc : accessor)
  (m : EstimatedMSM) : result value * EstimatedMSM :=
  match acc with
  | Lagtime => (mapResult VInt (lagtime m), m)
  | NstatesFull => (mapResult VNat (nstates_full m), m)
  | ActiveSet => (mapResult VArray (active_set m), m)
  | Connectivity => (mapResult VStr (connectivity m), m)
  | LargestConnectedSet => (mapResult VArray (largest_connected_set m), m)
  | ConnectedSets => (mapResult VArrays (connected_sets m), m)
  | DiscreteTrajectoriesFull =>
      (mapResult VArrays (discrete_trajectories_full m), m)
  | DiscreteTrajectoriesActive =>
      let '(r, m') := discrete_trajectories_active m in
      (mapResult VArrays r, m')
  | CountMatrixActive => (mapResult VMatrix (count_matrix_active m), m)
  | CountMatrixFull => (mapResult VMatrix (count_matrix_full m), m)
  | TrajectoryWeights => (mapResult VWeights (trajectory_weights m), m)
  | ActiveStateIndexes =>
      let '(r, m') := active_state_indexes index_states m in
      (mapResult VTable r, m')
  end.

(** The attributes after a sequence of accesses. *)
Definition run_accessors (index_states : index_builder)
  (accs : list accessor) (m : EstimatedMSM) : EstimatedMSM :=
  fold_left (fun m acc => snd (run_accessor index_states acc m)) accs m.

(** Two objects that differ at most in the two attributes created after
    construction. *)
Definition same_but_caches (m m' : EstimatedMSM) : Prop :=
  base m' = base m /\ lag m' = lag m /\
  _connectivity m' = _connectivity m /\
  _active_set m' = _active_set m /\
  _dtrajs_full m' = _dtrajs_full m /\
  dt_traj m' = dt_traj m /\
  _C_full m' = _C_full m /\
  _C_active m' = _C_active m /\
  _connected_sets m' = _connected_sets m /\
  _nstates_full m' = _nstates_full m /\
  _full2active m' = _full2active m /\
  _is_estimated m' = _is_estimated m.

(** ** Statements of the specification about one model *)

(** The active count matrix is the full count matrix restricted to the
    active set, in active-set order. *)
Definition active_counts_restrict_full (m : EstimatedMSM) : Prop :=
  exists Cf Ca aset,
    count_matrix_full m = Ok Cf /\
    count_matrix_active m = Ok Ca /\
    active_set m = Ok aset /\
    submatrix Cf aset = Ok Ca.

(** Some active-set label lies outside [0, nstates_full). *)
Definition label_out_of_full_range (a : init_args) : Prop :=
  exists s, s ∈ arg_active_set a /\
            ~ (0 <= s < Z.of_nat (length (arg_C_full a))).

(** In the output of [trajectory_weights], every frame whose full-space
    label is not in the active set has weight zero. *)
Definition inactive_frames_weigh_zero (m : EstimatedMSM) : Prop :=
  forall out, trajectory_weights m = Ok out ->
  forall (i t : nat) (dtraj : list Z) (s : Z),
    _dtrajs_full m !! i = Some dtraj -> dtraj !! t = Some s ->
    0 <= s -> s ∉ _active_set m ->
    exists o x, out !! i = Some o /\ o !! t = Some x /\ is_zero x = true.


(** Sum of all weights of all trajectories, trajectory by trajectory. *)
Definition total_weight (W : list (list float)) : float :=
  fold_left (fun acc w => (acc + Np.sum1 w)%float) W 0%float.

(** [|x - 1| <= 1e-9], with the binary64 value nearest to [1e-9]. *)
Definition is_one_within_1e9 (x : float) : bool :=
  (abs (x - 1) <=? 0x1.12e0be826d695p-30)%float.

(** ** Example inputs *)

(** Five full states of which states 0, 2 and 4 are active; each of the
    two trajectories ends in a state outside the active set. *)
Definition args_five_states : init_args :=
  {| arg_base :=
       {| transition_matrix :=
            [[0.5; 0.25; 0.25]; [0.5; 0.25; 0.25]; [0.5; 0.25; 0.25]]%float;
          stationary_distribution := [0.5; 0.25; 0.25]%float |};
     arg_dtrajs := [[0; 2; 4; 1]; [4; 0; 2; 3]];
     arg_dt_traj := "1 step";
     arg_lag := 1;
     arg_connectivity := "largest";
     arg_active_set := [0; 2; 4];
     arg_connected_sets := [[0; 2; 4]; [1]; [3]];
     arg_C_full := [[0; 0; 2; 0; 0]; [0; 0; 0; 0; 0]; [0; 0; 0; 1; 1];
                    [0; 0; 0; 0; 0]; [1; 1; 0; 0; 0]];
     arg_C_active := [[0; 2; 0]; [0; 0; 1]; [1; 0; 0]] |}.

(** Two states, both active, visited by two trajectories of two frames. *)
Definition args_two_trajs : init_args :=
  {| arg_base := {| transition_matrix := [[0; 1]; [1; 0]]%float;
                    stationary_distribution := [0.5; 0.5]%float |};
     arg_dtrajs := [[0; 1]; [1; 0]];
     arg_dt_traj := "1 step";
     arg_lag := 1;
     arg_connectivity := "largest";
     arg_active_set := [0; 1];
     arg_connected_sets := [[0; 1]];
     arg_C_full := [[0; 1]; [1; 0]];
     arg_C_active := [[0; 1]; [1; 0]] |}.

(** The same model with a second trajectory of a different length. *)
Definition args_ragged_trajs : init_args :=
  {| arg_base := arg_base args_two_trajs;
     arg_dtrajs := [[0; 1]; [1; 0; 1]];
     arg_dt_traj := "1 step";
     arg_lag := 1;
     arg_connectivity := "largest";
     arg_active_set := [0; 1];
     arg_connected_sets := [[0; 1]];
     arg_C_full := [[0; 1]; [1; 1]];
     arg_C_active := [[0; 1]; [1; 1]] |}.

(** Two full states of which only state 0 is active, and one trajectory
    that stays in state 1: no frame carries stationary mass. *)
Definition args_no_mass : init_args :=
  {| arg_base := {| transition_matrix := [[1]]%float;
                    stationary_distribution := [1]%float |};
     arg_dtrajs := [[1; 1]];
     arg_dt_traj := "1 step";
     arg_lag := 1;
     arg_connectivity := "largest";
     arg_active_set := [0];
     arg_connected_sets := [[0]; [1]];
     arg_C_full := [[0; 0]; [0; 1]];
     arg_C_active := [[0]] |}.

(** One state, with an active count matrix that is not the restriction of
    the full one. *)
Definition args_unrelated_counts : init_args :=
  {| arg_base := {| transition_matrix := [[1]]%float;
                    stationary_distribution := [1]%float |};
     arg_dtrajs := [[0; 0]];
     arg_dt_traj := "1 step";
     arg_lag := 1;
     arg_connectivity := "largest";
     arg_active_set := [0];
     arg_connected_sets := [[0]];
     arg_C_full := [[1]];
     arg_C_active := [[2]] |}.

(** Two full states and the active set [[-1]]. *)
Definition args_negative_label : init_args :=
  {| arg_base := {| transition_matrix := [[1]]%float;
                    stationary_distribution := [1]%float |};
     arg_dtrajs := [[1; 1]];
     arg_dt_traj := "1 step";
     arg_lag := 1;
     arg_connectivity := "largest";
     arg_active_set := [-1];
     arg_connected_sets := [[1]; [0]];
     arg_C_full := [[0; 0]; [0; 1]];
     arg_C_active := [[1]] |}.

(** Two full states and the active set [[0; 5]]. *)
Definition args_label_too_large : init_args :=
  {| arg_base := {| transition_matrix := [[1]]%float;
                    stationary_distribution := [1]%float |};
     arg_dtrajs := [[1; 1]];
     arg_dt_traj := "1 step";
     arg_lag := 1;
     arg_connectivity := "largest";
     arg_active_set := [0; 5];
     arg_connected_sets := [[0]; [1]];
     arg_C_full := [[0; 0]; [0; 1]];
     arg_C_active := [[0]] |}.

(** ** The index builder *)

(** Modelled from the spec: the full label range of a trajectory set, for
    the index builder below (absent from src/ with it): the labels from 0
    up to the largest label that occurs. *)
Definition number_of_states (dtrajs : list (list Z)) : Z :=
  1 + fold_left Z.max (concat dtrajs) (-1).

(** Modelled from the spec: the frames of label [s] as (trajectory, time)
    pairs, ordered by trajectory and then by time (section 4.1; part of
    the index builder below). *)
Definition frames_of (dtrajs : list (list Z)) (s : Z) : list (Z * Z) :=
  concat
    (imap (fun i dtraj =>
             concat (imap (fun t x =>
                             if x =? s then [(Z.of_nat i, Z.of_nat t)] else [])
                          dtraj))
          dtrajs).

(** Modelled from the spec: [pyemma.util.discrete_trajectories.index_states]
    is not under src/. Section 4.1 describes it: for every position [i] of
    the active set, the (trajectory, time) pairs of the frames whose label
    is the [i]-th active label, ordered by trajectory and then by time; it
    fails with [InvalidStateError] if an active-set label is out of the
    full label range. The properties below hold for every builder; this
    one instantiates them in the examples. *)
Definition index_states : index_builder :=
  fun dtrajs subset =>
    if forallb (fun s => (0 <=? s) && (s <? number_of_states dtrajs)) subset
    then Ok (map (frames_of dtrajs) subset)
    else Raise InvalidStateError.

(** ** Objects, references and copies *)

Module Heap.

(** The constructor's arguments are mutable objects the caller keeps
    references to. An object lives at a location of the heap; a Python
    list holds references to its items. *)
Abbreviation loc := nat.

Inductive pyobj : Type :=
| IntArray (a : list Z)
| IntMatrix (c : matrix Z)
| PyList (items : list loc).

Abbreviation heap := (list pyobj).

(** A new object gets the next free location. *)
Definition alloc (h : heap) (o : pyobj) : loc * heap :=
  (length h, h ++ [o]).

Definition read_array (h : heap) (l : loc) : option (list Z) :=
  match h !! l with
  | Some (IntArray a) => Some a
  | _ => None
  end.

Definition read_matrix (h : heap) (l : loc) : option (matrix Z) :=
  match h !! l with
  | Some (IntMatrix c) => Some c
  | _ => None
  end.

Definition read_items (h : heap) (l : loc) : option (list loc) :=
  match h !! l with
  | Some (PyList items) => Some items
  | _ => None
  end.

(** The content of a list of arrays. *)
Definition read_arrays (h : heap) (l : loc) : option (list (list Z)) :=
  match read_items h l with
  | Some items => mapM (read_array h) items
  | None => None
  end.

(** [copy.deepcopy] of an array or a matrix: a new object with the same
    content. *)
Definition copy_leaf (h : heap) (l : loc) : option (loc * heap) :=
  match h !! l with
  | Some (IntArray a) => Some (alloc h (IntArray a))
  | Some (IntMatrix c) => Some (alloc h (IntMatrix c))
  | _ => None
  end.

(** The memo of one [deepcopy] call: originals already copied, with
    their copies. *)
Fixpoint memo_find (memo : list (loc * loc)) (x : loc) : option loc :=
  match memo with
  | [] => None
  | (k, v) :: memo' => if Nat.eqb k x then Some v else memo_find memo' x
  end.

(** The items of a list are copied left to right; an item that occurs
    again is replaced by the copy made at its first occurrence. *)
Fixpoint copy_items (h : heap) (memo : list (loc * loc)) (items : list loc)
  : option (list loc * heap) :=
  match items with
  | [] => Some ([], h)
  | x :: rest =>
      match memo_find memo x with
      | Some x' =>
          match copy_items h memo rest with
          | Some (rest', h') => Some (x' :: rest', h')
          | None => None
          end
      | None =>
          match copy_leaf h x with
          | Some (x', h1) =>
              match copy_items h1 ((x, x') :: memo) rest with
              | Some (rest', h2) => Some (x' :: rest', h2)
              | None => None
              end
          | None => None
          end
      end
  end.

(** [copy.deepcopy] of an array, a matrix, or a list of arrays. [None]
    stands for an object outside this model (a dangling reference, a
    list nested in a list). *)
Definition deepcopy (h : heap) (l : loc) : option (loc * heap) :=
  match h !! l with
  | Some (PyList items) =>
      match copy_items h [] items with
      | Some (items', h1) => Some (alloc h1 (PyList items'))
      | None => None
      end
  | Some _ => copy_leaf h l
  | None => None
  end.

(** The constructor's arguments as the caller passes them: references
    for the mutable ones, values for the integer and the strings. *)
Record args_ref : Type := {
  ref_base : MSM;
  ref_dtrajs : loc;
  ref_dt_traj : string;
  ref_lag : Z;
  ref_connectivity : string;
  ref_active_set : loc;
  ref_connected_sets : loc;
  ref_C_full : loc;
  ref_C_active : loc
}.

(** The attributes of the object, as references; the two attributes
    created by accessors hold arrays no caller argument refers to and
    are kept by value. *)
Record self_ref : Type := {
  self_base : MSM;
  self_lag : Z;
  self_connectivity : string;
  self_active_set : loc;
  self_dtrajs_full : loc;
  self_dt_traj : string;
  self_C_full : loc;
  self_C_active : loc;
  self_connected_sets : loc;
  self_nstates_full : nat;
  self_full2active : loc;
  self_is_estimated : bool;
  self_dtrajs_active : option (list (list Z));
  self_active_state_indexes : option index_table
}.

Definition with_caches (s : self_ref) (c1 : option (list (list Z)))
    (c2 : option index_table) : self_ref :=
  {| self_base := self_base s; self_lag := self_lag s;
     self_connectivity := self_connectivity s;
     self_active_set := self_active_set s;
     self_dtrajs_full := self_dtrajs_full s;
     self_dt_traj := self_dt_traj s;
     self_C_full := self_C_full s; self_C_active := self_C_active s;
     self_connected_sets := self_connected_sets s;
     self_nstates_full := self_nstates_full s;
     self_full2active := self_full2active s;
     self_is_estimated := self_is_estimated s;
     self_dtrajs_active := c1;
     self_active_state_indexes := c2 |}.

(** [EstimatedMSM.__init__] on references, in the order of the source:
    the deep copies of [active_set], [dtrajs], [C_full], [C_active] and
    [connected_sets] (the connectivity string is immutable), the number
    of rows of the argument [C_full], the new array of [-1], and the
    assignment through the stored active set. *)
Definition init_ref (h : heap) (a : args_ref)
  : option (result self_ref * heap) :=
  '(l_aset, h1) ← deepcopy h (ref_active_set a);
  '(l_dtrajs, h2) ← deepcopy h1 (ref_dtrajs a);
  '(l_Cfull, h3) ← deepcopy h2 (ref_C_full a);
  '(l_Cactive, h4) ← deepcopy h3 (ref_C_active a);
  '(l_csets, h5) ← deepcopy h4 (ref_connected_sets a);
  C_full ← read_matrix h5 (ref_C_full a);
  let nstates_full := length C_full in
  aset ← read_array h5 l_aset;
  match build_full2active nstates_full aset with
  | Raise e => Some (Raise e, h5)
  | Ok full2active =>
      let '(l_f2a, h6) := alloc h5 (IntArray full2active) in
      Some (Ok {| self_base := ref_base a;
                  self_lag := ref_lag a;
                  self_connectivity := ref_connectivity a;
                  self_active_set := l_aset;
                  self_dtrajs_full := l_dtrajs;
                  self_dt_traj := ref_dt_traj a;
                  self_C_full := l_Cfull;
                  self_C_active := l_Cactive;
                  self_connected_sets := l_csets;
                  self_nstates_full := nstates_full;
                  self_full2active := l_f2a;
                  self_is_estimated := true;
                  self_dtrajs_active := None;
                  self_active_state_indexes := None |}, h6)
  end.

(** The content of the arguments in a heap. *)
Definition read_args (h : heap) (a : args_ref) : option init_args :=
  dtrajs ← read_arrays h (ref_dtrajs a);
  aset ← read_array h (ref_active_set a);
  csets ← read_arrays h (ref_connected_sets a);
  C_full ← read_matrix h (ref_C_full a);
  C_active ← read_matrix h (ref_C_active a);
  Some {| arg_base := ref_base a;
          arg_dtrajs := dtrajs;
          arg_dt_traj := ref_dt_traj a;
          arg_lag := ref_lag a;
          arg_connectivity := ref_connectivity a;
          arg_active_set := aset;
          arg_connected_sets := csets;
          arg_C_full := C_full;
          arg_C_active := C_active |}.

(** The content of the object's attributes in a heap. *)
Definition snapshot (h : heap) (s : self_ref) : option EstimatedMSM :=
  aset ← read_array h (self_active_set s);
  dtrajs ← read_arrays h (self_dtrajs_full s);
  C_full ← read_matrix h (self_C_full s);
  C_active ← read_matrix h (self_C_active s);
  csets ← read_arrays h (self_connected_sets s);
  full2active ← read_array h (self_full2active s);
  Some {| base := self_base s;
          lag := self_lag s;
          _connectivity := self_connectivity s;
          _active_set := aset;
          _dtrajs_full := dtrajs;
          dt_traj := self_dt_traj s;
          _C_full := C_full;
          _C_active := C_active;
          _connected_sets := csets;
          _nstates_full := self_nstates_full s;
          _full2active := full2active;
          _is_estimated := self_is_estimated s;
          _dtrajs_active := self_dtrajs_active s;
          _active_state_indexes := self_active_state_indexes s |}.

(** What an accessor returns on the object in a heap. *)
Definition access (index_states : index_builder) (acc : accessor)
    (h : heap) (s : self_ref) : option (result value) :=
  m ← snapshot h s;
  Some (fst (run_accessor index_states acc m)).

(** What the caller can do to the heap after construction: overwrite an
    object in place, or create a new one. *)
Inductive step : Type :=
| Overwrite (l : loc) (o : pyobj)
| Create (o : pyobj).

Definition apply_step (h : heap) (st : step) : heap :=
  match st with
  | Overwrite l o => <[l := o]> h
  | Create o => snd (alloc h o)
  end.

Definition apply_steps (h : heap) (steps : list step) : heap :=
  fold_left apply_step steps h.

(** A step that leaves alone the objects created between heap sizes
    [n0] and [n1]: it writes to an object that existed before, or to one
    created later. *)
Definition outside (n0 n1 : nat) (st : step) : Prop :=
  match st with
  | Overwrite l _ => (l < n0)%nat \/ (n1 <= l)%nat
  | Create _ => True
  end.

(** The memo of a copy in progress that started at heap [h0] and has
    reached heap [h]. *)
Definition memo_ok (h0 h : heap) (memo : list (loc * loc)) : Prop :=
  forall x x', memo_find memo x = Some x' ->
    (length h0 <= x' < length h)%nat /\
    forall a, read_array h0 x = Some a -> read_array h x' = Some a.

(** [h2] holds, at every location created from heap size [n0] up to the
    size of [h1], the object [h1] holds there. *)
Definition agree (n0 : nat) (h1 h2 : heap) : Prop :=
  (length h1 <= length h2)%nat /\
  forall l, (n0 <= l < length h1)%nat -> h2 !! l = h1 !! l.

(** An array, a matrix, a list of arrays with content [v] that lives,
    items included, at locations created from heap size [n0] on. *)
Definition owned_array (n0 : nat) (h : heap) (l : loc) (a : list Z)
  : Prop :=
  (n0 <= l < length h)%nat /\ read_array h l = Some a.

Definition owned_matrix (n0 : nat) (h : heap) (l : loc) (c : matrix Z)
  : Prop :=
  (n0 <= l < length h)%nat /\ read_matrix h l = Some c.

Definition owned_arrays (n0 : nat) (h : heap) (l : loc)
    (v : list (list Z)) : Prop :=
  (n0 <= l < length h)%nat /\
  exists items,
    read_items h l = Some items /\
    Forall (fun x => (n0 <= x < length h)%nat) items /\
    Forall2 (fun x y => read_array h x = Some y) items v.

(** The object [s] has the attribute values [m], all held in objects
    created from heap size [n0] on. *)
Definition owned_model (n0 : nat) (h : heap) (s : self_ref)
    (m : EstimatedMSM) : Prop :=
  owned_array n0 h (self_active_set s) (_active_set m) /\
  owned_arrays n0 h (self_dtrajs_full s) (_dtrajs_full m) /\
  owned_matrix n0 h (self_C_full s) (_C_full m) /\
  owned_matrix n0 h (self_C_active s) (_C_active m) /\
  owned_arrays n0 h (self_connected_sets s) (_connected_sets m) /\
  owned_array n0 h (self_full2active s) (_full2active m) /\
  m = {| base := self_base s;
         lag := self_lag s;
         _connectivity := self_connectivity s;
         _active_set := _active_set m;
         _dtrajs_full := _dtrajs_full m;
         dt_traj := self_dt_traj s;
         _C_full := _C_full m;
         _C_active := _C_active m;
         _connected_sets := _connected_sets m;
         _nstates_full := self_nstates_full s;
         _full2active := _full2active m;
         _is_estimated := self_is_estimated s;
         _dtrajs_active := self_dtrajs_active s;
         _active_state_indexes := self_active_state_indexes s |}.

(** A heap with the arguments of [args_five_states]. *)
Definition heap_five_states : heap :=
  [ IntArray [0; 2; 4; 1]; IntArray [4; 0; 2; 3]; PyList [0; 1]%nat;
    IntArray [0; 2; 4];
    IntArray [1]; IntArray [3]; PyList [3; 4; 5]%nat;
    IntMatrix (arg_C_full args_five_states);
    IntMatrix (arg_C_active args_five_states) ].

Definition refs_five_states : args_ref :=
  {| ref_base := arg_base args_five_states;
     ref_dtrajs := 2%nat;
     ref_dt_traj := "1 step";
     ref_lag := 1;
     ref_connectivity := "largest";
     ref_active_set := 3%nat;
     ref_connected_sets := 6%nat;
     ref_C_full := 7%nat;
     ref_C_active := 8%nat |}.

(** The caller empties the active set, overwrites a trajectory, drops
    the connected sets and zeroes the full count matrix. *)
Definition caller_steps : list step :=
  [ Overwrite 3%nat (IntArray []); Overwrite 0%nat (IntArray [9; 9; 9]);
    Create (IntArray [7]); Overwrite 6%nat (PyList []);
    Overwrite 7%nat (IntMatrix [[0]]) ].

End Heap.

(** ** Further notions used by the properties of the code *)


(** What the loop of [trajectory_weights] accumulates: for each [j] from
    [from] on, [count] times, the sum of the first [j] arrays of [W]. *)
Definition prefix_sums_total (W : list (list float)) (from count : nat)
    (wtot : float) : float :=
  fold_left (fun acc j => (acc + Np.sum1 (concat (take j W)))%float)
            (seq from count) wtot.

(** [active_set] on references: the guard, then the stored reference
    itself ([return self._active_set]). *)
Definition active_set_ref (s : Heap.self_ref) : result nat :=
  if Heap.self_is_estimated s then Ok (Heap.self_active_set s)
  else Raise AssertionError.

(** The setter of the property [active_set]:
    [self._active_set = value], and nothing else. *)
Definition set_active_set (m : EstimatedMSM) (value : list Z)
  : EstimatedMSM :=
  {| base := base m; lag := lag m; _connectivity := _connectivity m;
     _active_set := value; _dtrajs_full := _dtrajs_full m;
     dt_traj := dt_traj m; _C_full := _C_full m; _C_active := _C_active m;
     _connected_sets := _connected_sets m;
     _nstates_full := _nstates_full m; _full2active := _full2active m;
     _is_estimated := _is_estimated m;
     _dtrajs_active := _dtrajs_active m;
     _active_state_indexes := _active_state_indexes m |}.

(** ** The fixture of [test_bayesian_msm.py] *)

(** [a[start:] = v] for a scalar [v]: the entries from [start] to the end
    are overwritten; a [start] beyond the end overwrites nothing. *)
Definition slice_fill_from {A} (a : list A) (start : nat) (v : A) : list A :=
  take start a ++ replicate (length a - start) v.

(** [cg = np.zeros(100, dtype=int); cg[50:] = 1]. *)
Definition cg : list Z := slice_fill_from (replicate 100 0) 50 1.

(** [obs_macro = cg[obs_micro]]. *)
Definition obs_macro (obs_micro : list Z) : result (list Z) :=
  Np.take cg obs_micro.

(** Two full states and an active set that names state 1 twice. *)
Definition args_repeated_label : init_args :=
  {| arg_base := {| transition_matrix := [[1]]%float;
                    stationary_distribution := [1]%float |};
     arg_dtrajs := [[1; 0; 1]];
     arg_dt_traj := "1 step";
     arg_lag := 1;
     arg_connectivity := "largest";
     arg_active_set := [1; 0; 1];
     arg_connected_sets := [[0; 1]];
     arg_C_full := [[0; 1]; [1; 0]];
     arg_C_active := [[0; 1]; [1; 0]] |}.

(** The five-state model with a frame labelled 7 in the second of three
    trajectories. *)
Definition args_bad_frame : init_args :=
  {| arg_base := arg_base args_five_states;
     arg_dtrajs := [[0; 2]; [4; 7]; [1]];
     arg_dt_traj := "1 step";
     arg_lag := 1;
     arg_connectivity := "largest";
     arg_active_set := [0; 2; 4];
     arg_connected_sets := [[0; 2; 4]; [1]; [3]];
     arg_C_full := arg_C_full args_five_states;
     arg_C_active := arg_C_active args_five_states |}.

(** Three full states of which states 0 and 2 are active, and one
    trajectory that never visits state 2. *)
Definition args_unvisited_state : init_args :=
  {| arg_base := {| transition_matrix := [[1; 0]; [0; 1]]%float;
                    stationary_distribution := [0.5; 0.5]%float |};
     arg_dtrajs := [[0; 1; 0]];
     arg_dt_traj := "1 step";
     arg_lag := 1;
     arg_connectivity := "largest";
     arg_active_set := [0; 2];
     arg_connected_sets := [[0; 2]; [1]];
     arg_C_full := [[0; 1; 0]; [1; 0; 0]; [0; 0; 0]];
     arg_C_active := [[0; 0]; [0; 0]] |}.

(** The five-state model with one trajectory whose last two frames carry
    negative labels: numpy reads [-1] as state 4 and [-2] as state 3. *)
Definition args_negative_frame : init_args :=
  {| arg_base := arg_base args_five_states;
     arg_dtrajs := [[0; -1; -2]];
     arg_dt_traj := "1 step";
     arg_lag := 1;
     arg_connectivity := "largest";
     arg_active_set := [0; 2; 4];
     arg_connected_sets := [[0; 2; 4]; [1]; [3]];
     arg_C_full := arg_C_full args_five_states;
     arg_C_active := arg_C_active args_five_states |}.

(** * Properties *)

(** ** Tactics for concrete lists *)

Ltac solve_elem :=
  repeat first [apply list_elem_of_here | apply list_elem_of_further].

Ltac solve_not_elem :=
  let H := fresh "H" in
  intros H;
  repeat (apply elem_of_cons in H as [H|H]; [discriminate|]);
  by apply elem_of_nil in H.

(** ** Results *)

Lemma bindR_ok {A B} (r : result A) (k : A -> result B) (b : B) :
  bindR r k = Ok b -> exists a, r = Ok a /\ k a = Ok b.
Proof. destruct r as [a|e]; simpl; [eauto | discriminate]. Qed.

Lemma mapR_length {A B} (f : A -> result B) (l : list A) (ys : list B) :
  mapR f l = Ok ys -> length ys = length l.
Proof.
  revert ys; induction l as [|x l IH]; simpl; intros ys H.
  - by inversion H.
  - apply bindR_ok in H as (y & _ & H).
    apply bindR_ok in H as (ys' & Hys & H).
    inversion H; subst; simpl. f_equal; auto.
Qed.

Lemma mapR_lookup {A B} (f : A -> result B) (l : list A) (ys : list B)
    (k : nat) (x : A) :
  mapR f l = Ok ys -> l !! k = Some x ->
  exists y, ys !! k = Some y /\ f x = Ok y.
Proof.
  revert ys k; induction l as [|x0 l IH]; simpl; intros ys k H Hk.
  - discriminate.
  - apply bindR_ok in H as (y & Hy & H).
    apply bindR_ok in H as (ys' & Hys & H).
    inversion H; subst; clear H.
    destruct k as [|k]; simpl in *.
    + inversion Hk; subst; eauto.
    + eauto.
Qed.

Lemma mapR_total {A B} (f : A -> result B) (g : A -> B) (l : list A) :
  Forall (fun x => f x = Ok (g x)) l -> mapR f l = Ok (map g l).
Proof.
  induction 1 as [|x l Hx _ IH]; simpl; [done|].
  by rewrite Hx; simpl; rewrite IH.
Qed.

Lemma mapR_raise {A B} (f : A -> result B) (l : list A) (e : exn) :
  (forall x, x ∈ l -> f x = Raise e \/ is_ok (f x) = true) ->
  (exists x, x ∈ l /\ f x = Raise e) ->
  mapR f l = Raise e.
Proof.
  induction l as [|x l IH]; intros Hall (x0 & Hin & Hx0).
  - by apply elem_of_nil in Hin.
  - simpl. destruct (Hall x) as [Hx|Hx]; [left | by rewrite Hx |].
    destruct (f x) as [y|e'] eqn:Hfx; [|done]. simpl.
    rewrite IH; [done | intros; apply Hall; by right |].
    apply elem_of_cons in Hin as [->|Hin]; [congruence | eauto].
Qed.

(** ** numpy indexing *)

Lemma norm_index_in_range (n : nat) (i : Z) :
  0 <= i < Z.of_nat n -> Np.norm_index n i = Ok (Z.to_nat i).
Proof.
  intros [H1 H2]. unfold Np.norm_index.
  apply Z.leb_le in H1. apply Z.ltb_lt in H2. by rewrite H1, H2.
Qed.

Lemma norm_index_wrap (n : nat) (i : Z) :
  - Z.of_nat n <= i < 0 -> Np.norm_index n i = Ok (Z.to_nat (i + Z.of_nat n)).
Proof.
  intros [H1 H2]. unfold Np.norm_index.
  assert ((0 <=? i) = false) as -> by (apply Z.leb_gt; lia). simpl.
  apply Z.leb_le in H1. apply Z.ltb_lt in H2. by rewrite H1, H2.
Qed.

Lemma norm_index_out (n : nat) (i : Z) :
  i < - Z.of_nat n \/ Z.of_nat n <= i -> Np.norm_index n i = Raise IndexError.
Proof.
  intros H. unfold Np.norm_index.
  destruct (0 <=? i) eqn:H1, (i <? Z.of_nat n) eqn:H2,
    (- Z.of_nat n <=? i) eqn:H3, (i <? 0) eqn:H4; simpl; try done;
    repeat match goal with
      | H : (_ <=? _) = true |- _ => apply Z.leb_le in H
      | H : (_ <=? _) = false |- _ => apply Z.leb_gt in H
      | H : (_ <? _) = true |- _ => apply Z.ltb_lt in H
      | H : (_ <? _) = false |- _ => apply Z.ltb_ge in H
      end; lia.
Qed.

Lemma norm_index_cases (n : nat) (i : Z) :
  Np.norm_index n i = Raise IndexError \/ is_ok (Np.norm_index n i) = true.
Proof.
  unfold Np.norm_index.
  destruct ((0 <=? i) && (i <? Z.of_nat n)); [by right|].
  destruct ((- Z.of_nat n <=? i) && (i <? 0)); [by right | by left].
Qed.

Lemma getitem_in_range {A} (a : list A) (i : Z) (x : A) :
  0 <= i -> a !! Z.to_nat i = Some x -> Np.getitem a i = Ok x.
Proof.
  intros Hi Hx. unfold Np.getitem.
  rewrite norm_index_in_range; [simpl; by rewrite Hx|].
  apply lookup_lt_Some in Hx. lia.
Qed.

Lemma assign_length {A} (kvs : list (nat * A)) (a : list A) :
  length (Np.assign a kvs) = length a.
Proof.
  revert a; induction kvs as [|[k v] kvs IH]; intros a; simpl; [done|].
  by rewrite IH, length_insert.
Qed.

Lemma assign_lookup_other {A} (kvs : list (nat * A)) (a : list A) (j : nat) :
  j ∉ (kvs.*1) -> Np.assign a kvs !! j = a !! j.
Proof.
  revert a; induction kvs as [|[k v] kvs IH]; intros a Hj; simpl; [done|].
  simpl in Hj. apply not_elem_of_cons in Hj as [Hjk Hj].
  rewrite IH by done. by apply list_lookup_insert_ne.
Qed.

Lemma assign_lookup_key {A} (kvs : list (nat * A)) (a : list A)
    (p : nat) (k : nat) (v : A) :
  NoDup (kvs.*1) -> kvs !! p = Some (k, v) -> (k < length a)%nat ->
  Np.assign a kvs !! k = Some v.
Proof.
  revert a p; induction kvs as [|[k0 v0] kvs IH]; intros a p Hnd Hp Hk;
    simpl in *; [done|].
  apply NoDup_cons in Hnd as [Hk0 Hnd].
  destruct p as [|p]; simpl in Hp.
  - inversion Hp; subst.
    rewrite assign_lookup_other by done.
    by apply list_lookup_insert_eq.
  - eapply IH; eauto. by rewrite length_insert.
Qed.

Lemma broadcast_to_length {A} (n : nat) (vals vs : list A) :
  Np.broadcast_to n vals = Ok vs -> length vs = n.
Proof.
  unfold Np.broadcast_to. destruct (Nat.eqb_spec (length vals) n) as [E|E].
  - intros [= <-]. done.
  - destruct vals as [|v [|? ?]]; try discriminate.
    intros [= <-]. apply length_replicate.
Qed.

Lemma to_nat_inj_on (n : nat) (l : list Z) :
  Forall (fun s => 0 <= s < Z.of_nat n) l -> NoDup l -> NoDup (map Z.to_nat l).
Proof.
  induction 1 as [|s l Hs Hl IH]; simpl; intros Hnd; [constructor|].
  apply NoDup_cons in Hnd as [Hnotin Hnd].
  apply NoDup_cons; split; [|auto].
  intros Hin. apply list_elem_of_fmap in Hin as (s' & Heq & Hs').
  rewrite Forall_forall in Hl. specialize (Hl _ Hs').
  assert (s = s') by lia. by subst.
Qed.

Lemma mapR_norm_index_in_range (n : nat) (idx : list Z) :
  Forall (fun s => 0 <= s < Z.of_nat n) idx ->
  mapR (Np.norm_index n) idx = Ok (map Z.to_nat idx).
Proof.
  intros H. apply mapR_total.
  eapply Forall_impl; [exact H|]. intros s Hs. by apply norm_index_in_range.
Qed.

(** Writing through a valid active set: the entry of the [i]-th label is
    the [i]-th value, every other entry keeps what it held. *)
Lemma put_valid_spec {A} (a a' : list A) (aset : list Z) (vals : list A) :
  valid_active_set (length a) aset ->
  Np.put a aset vals = Ok a' ->
  exists vs,
    Np.broadcast_to (length aset) vals = Ok vs /\
    length a' = length a /\
    (forall (i : nat) (s : Z) (v : A),
        aset !! i = Some s -> vs !! i = Some v ->
        a' !! Z.to_nat s = Some v) /\
    (forall s : Z, 0 <= s -> s ∉ aset -> a' !! Z.to_nat s = a !! Z.to_nat s).
Proof.
  intros [Hnd Hrange] Hput. unfold Np.put in Hput.
  apply bindR_ok in Hput as (vs & Hvs & Hput).
  rewrite mapR_norm_index_in_range in Hput by done. simpl in Hput.
  injection Hput as <-.
  pose proof (broadcast_to_length _ _ _ Hvs) as Hlen.
  assert ((zip (map Z.to_nat aset) vs).*1 = map Z.to_nat aset) as Hkeys.
  { apply fst_zip. rewrite length_map. lia. }
  exists vs. split; [done|]. split; [apply assign_length|]. split.
  - intros i s v Hs Hv.
    eapply (assign_lookup_key _ _ i).
    + rewrite Hkeys. by eapply to_nat_inj_on.
    + apply lookup_zip_with_Some. exists (Z.to_nat s), v.
      split; [done|]. split; [|done].
      by rewrite list_lookup_fmap, Hs.
    + rewrite Forall_forall in Hrange.
      apply list_elem_of_lookup_2 in Hs. specialize (Hrange _ Hs). lia.
  - intros s Hs Hnotin. apply assign_lookup_other. rewrite Hkeys.
    intros Hin. apply list_elem_of_fmap in Hin as (s' & Heq & Hs').
    rewrite Forall_forall in Hrange. specialize (Hrange _ Hs').
    assert (s = s') by lia. by subst.
Qed.

Lemma put_valid_ok {A} (a : list A) (aset : list Z) (vals : list A) :
  Forall (fun s => 0 <= s < Z.of_nat (length a)) aset ->
  length vals = length aset ->
  exists a', Np.put a aset vals = Ok a'.
Proof.
  intros Hrange Hlen. unfold Np.put, Np.broadcast_to.
  rewrite Hlen, Nat.eqb_refl. simpl.
  rewrite mapR_norm_index_in_range by done. simpl. eauto.
Qed.

Lemma arange_length (n : nat) : length (Np.arange n) = n.
Proof. unfold Np.arange. by rewrite length_map, length_seq. Qed.

Lemma arange_lookup (n i : nat) :
  (i < n)%nat -> Np.arange n !! i = Some (Z.of_nat i).
Proof.
  intros Hi. unfold Np.arange.
  rewrite list_lookup_fmap, lookup_seq_lt by done. done.
Qed.

(** ** The full-to-active map *)

Lemma build_full2active_spec (n : nat) (aset : list Z) :
  valid_active_set n aset ->
  exists f2a,
    build_full2active n aset = Ok f2a /\
    length f2a = n /\
    (forall (i : nat) (s : Z),
        aset !! i = Some s -> Np.getitem f2a s = Ok (Z.of_nat i)) /\
    (forall s : Z,
        0 <= s < Z.of_nat n -> s ∉ aset -> Np.getitem f2a s = Ok (-1)).
Proof.
  intros Hv. pose proof Hv as [Hnd Hrange].
  destruct (put_valid_ok (replicate n (-1)) aset (Np.arange (length aset)))
    as [f2a Hput].
  { by rewrite length_replicate. }
  { apply arange_length. }
  exists f2a. split; [exact Hput|].
  apply put_valid_spec in Hput as (vs & Hvs & Hlen & Hkey & Hother);
    [|by rewrite length_replicate].
  unfold Np.broadcast_to in Hvs.
  rewrite arange_length, Nat.eqb_refl in Hvs. injection Hvs as <-.
  rewrite length_replicate in Hlen.
  split; [done|]. split.
  - intros i s Hs. rewrite Forall_forall in Hrange.
    pose proof (Hrange _ (list_elem_of_lookup_2 _ _ _ Hs)) as Hs'.
    apply getitem_in_range; [lia|].
    eapply Hkey; [exact Hs|].
    apply arange_lookup. by eapply lookup_lt_Some.
  - intros s Hs Hnotin. apply getitem_in_range; [lia|].
    rewrite Hother by (done || lia).
    apply lookup_replicate_2. lia.
Qed.

Lemma init_ok_inv (a : init_args) (m : EstimatedMSM) :
  __init__ a = Ok m ->
  build_full2active (length (arg_C_full a)) (arg_active_set a)
    = Ok (_full2active m) /\
  base m = arg_base a /\ lag m = arg_lag a /\
  _connectivity m = arg_connectivity a /\
  _active_set m = arg_active_set a /\
  _dtrajs_full m = arg_dtrajs a /\
  dt_traj m = arg_dt_traj a /\
  _C_full m = arg_C_full a /\
  _C_active m = arg_C_active a /\
  _connected_sets m = arg_connected_sets a /\
  _nstates_full m = length (arg_C_full a) /\
  _is_estimated m = true /\
  _dtrajs_active m = None /\
  _active_state_indexes m = None.
Proof.
  unfold __init__. intros H.
  apply bindR_ok in H as (f2a & Hf & H). injection H as <-. simpl.
  repeat split; done.
Qed.

(** C3. After construction on a valid active set, the full-to-active map
    sends the label at position [i] of the active set to [i] and every
    full-space label outside the active set to the sentinel [-1]; for the
    active set [0,2,4] in a full space of 5 states the map is
    [0,-1,1,-1,2]. *)
Theorem full2active_after_init (a : init_args) :
  valid_active_set (length (arg_C_full a)) (arg_active_set a) ->
  exists m,
    __init__ a = Ok m /\
    length (_full2active m) = length (arg_C_full a) /\
    (forall (i : nat) (s : Z),
        _active_set m !! i = Some s ->
        Np.getitem (_full2active m) s = Ok (Z.of_nat i)) /\
    (forall s : Z,
        0 <= s < Z.of_nat (_nstates_full m) -> s ∉ _active_set m ->
        Np.getitem (_full2active m) s = Ok (-1)) /\
    (arg_active_set a = [0; 2; 4] -> length (arg_C_full a) = 5%nat ->
     _full2active m = [0; -1; 1; -1; 2]).
Proof.
  intros Hv.
  destruct (build_full2active_spec _ _ Hv) as (f2a & Hb & Hlen & Hk & Ho).
  unfold __init__. rewrite Hb. simpl. eexists; split; [reflexivity|].
  simpl. repeat split; auto.
  intros Haset Hn. rewrite Haset, Hn in Hb. by injection Hb.
Qed.

Lemma valid_active_set_five : valid_active_set 5 [0; 2; 4].
Proof.
  split.
  - repeat (apply NoDup_cons; split; [solve_not_elem|]). apply NoDup_nil_2.
  - repeat (apply Forall_cons; split; [lia|]). apply Forall_nil_2.
Defined.

Lemma full2active_after_init_witness :
  exists m,
    __init__ args_five_states = Ok m /\
    _full2active m = [0; -1; 1; -1; 2] /\
    Np.getitem (_full2active m) 4 = Ok 2 /\
    Np.getitem (_full2active m) 3 = Ok (-1).
Proof.
  destruct (full2active_after_init args_five_states valid_active_set_five)
    as (m & Hm & _ & Hk & Ho & Hscen).
  exists m. split; [exact Hm|]. split; [by apply Hscen|].
  apply init_ok_inv in Hm as Hinv.
  destruct Hinv as (_ & _ & _ & _ & Ha & _ & _ & _ & _ & _ & Hn & _).
  split.
  - apply (Hk 2%nat 4). by rewrite Ha.
  - apply (Ho 3); rewrite ?Hn, ?Ha; simpl; [lia | solve_not_elem].
Defined.

Lemma init_constructed (a : init_args) (m : EstimatedMSM) :
  __init__ a = Ok m -> constructed m.
Proof.
  intros H. apply init_ok_inv in H.
  destruct H as (Hf & _ & _ & _ & Ha & _ & _ & HC & _ & _ & Hn & He & _).
  unfold constructed. rewrite Hn, HC, Ha. auto.
Qed.

(** ** Active trajectories *)

Lemma mapR_exists {A B} (f : A -> result B) (l : list A) :
  Forall (fun x => exists y, f x = Ok y) l -> exists ys, mapR f l = Ok ys.
Proof.
  induction 1 as [|x l [y Hy] _ [ys IH]]; simpl; [eauto|].
  rewrite Hy; simpl. rewrite IH; simpl. eauto.
Qed.

Lemma take_in_range {A} (a : list A) (idx : list Z) :
  Forall (fun s => 0 <= s < Z.of_nat (length a)) idx ->
  exists out, Np.take a idx = Ok out.
Proof.
  intros H. apply mapR_exists. eapply Forall_impl; [exact H|].
  intros s Hs. simpl in Hs.
  destruct (lookup_lt_is_Some_2 a (Z.to_nat s)) as [x Hx]; [lia|].
  exists x. apply getitem_in_range; [lia | done].
Qed.

Lemma dtrajs_active_loop_mapR (f2a : list Z) (dtrajs outs acc : list (list Z)) :
  mapR (Np.take f2a) dtrajs = Ok outs ->
  dtrajs_active_loop f2a dtrajs acc = (Ok (acc ++ outs), acc ++ outs).
Proof.
  revert outs acc; induction dtrajs as [|d ds IH]; simpl; intros outs acc H.
  - injection H as <-. by rewrite app_nil_r.
  - apply bindR_ok in H as (o & Ho & H).
    apply bindR_ok in H as (os & Hos & H). injection H as <-.
    rewrite Ho, (IH os) by done. by rewrite <- app_assoc.
Qed.

(** C9. On a constructed model with a valid active set and trajectories
    over the full space, [discrete_trajectories_active] returns one array
    per full trajectory, in the same order and of the same length, whose
    entry [t] is the full-to-active map at entry [t] of the full
    trajectory, which is [-1] for a label outside the active set. *)
Theorem discrete_trajectories_active_maps (m : EstimatedMSM) :
  constructed m ->
  valid_active_set (_nstates_full m) (_active_set m) ->
  valid_dtrajs (_nstates_full m) (_dtrajs_full m) ->
  exists out,
    fst (discrete_trajectories_active m) = Ok out /\
    length out = length (_dtrajs_full m) /\
    (forall (i : nat) (dtraj : list Z),
        _dtrajs_full m !! i = Some dtraj ->
        exists o,
          out !! i = Some o /\ length o = length dtraj /\
          (forall (t : nat) (s : Z),
              dtraj !! t = Some s ->
              exists v,
                o !! t = Some v /\
                Np.getitem (_full2active m) s = Ok v /\
                (s ∉ _active_set m -> v = -1))).
Proof.
  intros (Hest & Hn & Hf2a) Hv Hd.
  destruct (build_full2active_spec _ _ Hv) as (f2a & Hb & Hlen & _ & Hout).
  rewrite Hf2a in Hb. injection Hb as <-.
  destruct (mapR_exists (Np.take (_full2active m)) (_dtrajs_full m))
    as [outs Houts].
  { eapply Forall_impl; [exact Hd|]. intros d Hdl.
    apply take_in_range. by rewrite Hlen. }
  exists outs. unfold discrete_trajectories_active, _check_is_estimated.
  rewrite Hest, (dtrajs_active_loop_mapR _ _ outs) by done. simpl.
  split; [done|]. split; [by eapply mapR_length|].
  intros i dtraj Hi.
  destruct (mapR_lookup _ _ _ _ _ Houts Hi) as (o & Ho & Htake).
  exists o. split; [done|]. split; [by eapply mapR_length|].
  intros t s Ht.
  destruct (mapR_lookup _ _ _ _ _ Htake Ht) as (v & Hv' & Hget).
  exists v. split; [done|]. split; [done|].
  intros Hnotin.
  unfold valid_dtrajs in Hd. rewrite Forall_forall in Hd.
  pose proof (Hd _ (list_elem_of_lookup_2 _ _ _ Hi)) as Hdl.
  rewrite Forall_forall in Hdl.
  pose proof (Hdl _ (list_elem_of_lookup_2 _ _ _ Ht)) as Hs.
  rewrite (Hout s Hs Hnotin) in Hget. by injection Hget.
Qed.

Lemma valid_dtrajs_five : valid_dtrajs 5 [[0; 2; 4; 1]; [4; 0; 2; 3]].
Proof.
  repeat (apply Forall_cons; split;
          [repeat (apply Forall_cons; split; [lia|]); apply Forall_nil_2|]).
  apply Forall_nil_2.
Defined.

Lemma discrete_trajectories_active_maps_witness :
  exists m,
    __init__ args_five_states = Ok m /\
    fst (discrete_trajectories_active m) = Ok [[0; 1; 2; -1]; [2; 0; 1; -1]].
Proof.
  eexists. split; [reflexivity|].
  match goal with
  | |- fst (discrete_trajectories_active ?m) = _ =>
      destruct (discrete_trajectories_active_maps m)
        as (out & Hout & Hlen & _)
  end.
  - by apply (init_constructed args_five_states).
  - exact valid_active_set_five.
  - exact valid_dtrajs_five.
  - rewrite Hout. vm_compute in Hout. by injection Hout as <-.
Defined.

(** ** Count matrices *)

(** C4 (as stated) fails: the constructor stores the two count matrices it
    is given without relating them, so a model built from unrelated
    matrices returns an active count matrix that is not the restriction
    of the full one. *)
Lemma active_counts_unrelated :
  exists m, __init__ args_unrelated_counts = Ok m /\
            ~ active_counts_restrict_full m.
Proof.
  eexists; split; [reflexivity|].
  intros (Cf & Ca & aset & HCf & HCa & Haset & Hsub).
  vm_compute in HCf, HCa, Haset.
  injection HCf as <-. injection HCa as <-. injection Haset as <-.
  vm_compute in Hsub. discriminate.
Qed.

(** C4 (amended). When the active count matrix handed to the constructor
    is the restriction of the full count matrix to the active set, the
    model's [count_matrix_active] is the restriction of its
    [count_matrix_full] to its active set, in active-set order. *)
Theorem active_counts_restrict_full_when_given (a : init_args)
    (m : EstimatedMSM) :
  __init__ a = Ok m ->
  submatrix (arg_C_full a) (arg_active_set a) = Ok (arg_C_active a) ->
  active_counts_restrict_full m.
Proof.
  intros Hm Hsub. apply init_ok_inv in Hm.
  destruct Hm as (_ & _ & _ & _ & Ha & _ & _ & HCf & HCa & _ & _ & He & _).
  exists (_C_full m), (_C_active m), (_active_set m).
  unfold count_matrix_full, count_matrix_active, active_set,
    _check_is_estimated.
  rewrite He. simpl. rewrite HCf, HCa, Ha. auto.
Qed.

Lemma active_counts_restrict_full_when_given_witness :
  exists m, __init__ args_five_states = Ok m /\
            active_counts_restrict_full m.
Proof.
  eexists; split; [reflexivity|].
  eapply (active_counts_restrict_full_when_given args_five_states);
    reflexivity.
Defined.

(** ** Active-set labels out of range *)

(** C5 (as stated) fails: a negative label down to [-nstates_full] is
    outside the full label range, yet construction succeeds; numpy reads
    it as an index from the end. *)
Lemma negative_label_accepted :
  label_out_of_full_range args_negative_label /\
  exists m, __init__ args_negative_label = Ok m /\ _full2active m = [-1; 0].
Proof.
  split.
  - exists (-1). split; [solve_elem | simpl; lia].
  - eexists; split; reflexivity.
Qed.

Lemma build_full2active_out_of_bounds (n : nat) (aset : list Z) :
  (exists s, s ∈ aset /\ (s < - Z.of_nat n \/ Z.of_nat n <= s)) ->
  build_full2active n aset = Raise IndexError.
Proof.
  intros (s & Hin & Hs). unfold build_full2active, Np.put, Np.broadcast_to.
  rewrite arange_length, Nat.eqb_refl. simpl.
  rewrite length_replicate.
  rewrite (mapR_raise _ _ IndexError); [done | |].
  - intros x _. apply norm_index_cases.
  - exists s. split; [done|]. by apply norm_index_out.
Qed.

Lemma build_full2active_in_bounds (n : nat) (aset : list Z) :
  Forall (fun s => - Z.of_nat n <= s < Z.of_nat n) aset ->
  exists f2a, build_full2active n aset = Ok f2a.
Proof.
  intros H. unfold build_full2active, Np.put, Np.broadcast_to.
  rewrite arange_length, Nat.eqb_refl. simpl.
  rewrite length_replicate.
  destruct (mapR_exists (Np.norm_index n) aset) as [ks Hks].
  - eapply Forall_impl; [exact H|]. intros s Hs. simpl in Hs.
    destruct (Z_lt_dec s 0).
    + eexists. apply norm_index_wrap. lia.
    + eexists. apply norm_index_in_range. lia.
  - rewrite Hks. simpl. eauto.
Qed.

(** C5 (amended). If some active-set label is at least [nstates_full] or
    below [-nstates_full], the constructor fails with numpy's
    [IndexError] while building the full-to-active map, so no model and
    no index structure exists; if every label is in
    [-nstates_full, nstates_full) the constructor succeeds, negative
    labels included. *)
Theorem init_label_bounds (a : init_args) :
  let n := Z.of_nat (length (arg_C_full a)) in
  ((exists s, s ∈ arg_active_set a /\ (s < - n \/ n <= s)) ->
   __init__ a = Raise IndexError) /\
  (Forall (fun s => - n <= s < n) (arg_active_set a) ->
   exists m, __init__ a = Ok m).
Proof.
  intros n. split.
  - intros H. unfold __init__.
    by rewrite build_full2active_out_of_bounds.
  - intros H. unfold __init__.
    destruct (build_full2active_in_bounds _ _ H) as [f2a ->]. simpl. eauto.
Qed.

Lemma init_label_bounds_witness :
  __init__ args_label_too_large = Raise IndexError /\
  exists m, __init__ args_negative_label = Ok m.
Proof.
  split.
  - apply (proj1 (init_label_bounds args_label_too_large)).
    exists 5. split; [solve_elem | simpl; lia].
  - apply (proj2 (init_label_bounds args_negative_label)).
    apply Forall_cons; split; [simpl; lia | apply Forall_nil_2].
Defined.

(** ** Division of binary64 numbers by zero and of zero *)

Lemma is_zero_spec (w : float) :
  is_zero w = true -> exists s, Prim2SF w = S754_zero s.
Proof.
  unfold is_zero. rewrite FloatAxioms.eqb_spec.
  change (Prim2SF zero) with (S754_zero false).
  destruct (Prim2SF w) as [s|s| |s mw e]; simpl; try discriminate; eauto.
  all: by destruct s.
Qed.

(** [0 / w] is a zero for every number [w] other than zero and NaN. *)
Lemma zero_div (w : float) :
  is_nan w = false -> is_zero w = false -> is_zero (0 / w) = true.
Proof.
  unfold is_nan, is_zero.
  rewrite !FloatAxioms.eqb_spec, FloatAxioms.div_spec.
  change (Prim2SF 0) with (S754_zero false).
  change (Prim2SF zero) with (S754_zero false).
  destruct (Prim2SF w) as [s|s| |s mw e]; simpl; try discriminate; done.
Qed.


(** [0 / w] is NaN when [w] is a zero. *)
Lemma zero_div_zero (w : float) :
  is_zero w = true -> is_nan (0 / w) = true.
Proof.
  intros [s Hw]%is_zero_spec. unfold is_nan.
  rewrite FloatAxioms.eqb_spec, FloatAxioms.div_spec, Hw.
  change (Prim2SF 0) with (S754_zero false). done.
Qed.

(** ** Trajectory weights *)

Lemma weights_loop_inv (sd : list float) (dtrajs : list (list Z))
    (W W' : list (list float)) (wtot wtot' : float) :
  weights_loop sd dtrajs W wtot = Ok (W', wtot') ->
  exists ws, mapR (Np.take sd) dtrajs = Ok ws /\ W' = W ++ ws.
Proof.
  revert W wtot; induction dtrajs as [|d ds IH]; simpl; intros W wtot H.
  - injection H as <- <-. exists []. by rewrite app_nil_r.
  - apply bindR_ok in H as (w & Hw & H).
    apply bindR_ok in H as (s & _ & H).
    apply IH in H as (ws & Hws & ->).
    exists (w :: ws). rewrite Hw, Hws. simpl.
    by rewrite <- app_assoc.
Qed.

Lemma unnormalized_weights_inv (m : EstimatedMSM) (W : list (list float))
    (wtot : float) :
  unnormalized_weights m = Ok (W, wtot) ->
  exists sd,
    _is_estimated m = true /\
    Np.put (replicate (_nstates_full m) 0%float) (_active_set m)
           (stationary_distribution (base m)) = Ok sd /\
    mapR (Np.take sd) (_dtrajs_full m) = Ok W.
Proof.
  unfold unnormalized_weights, statdist_full, discrete_trajectories_full,
    active_set, _check_is_estimated.
  destruct (_is_estimated m); [simpl | discriminate].
  intros H. apply bindR_ok in H as (sd & Hsd & H).
  apply weights_loop_inv in H as (ws & Hws & ->).
  exists sd. auto.
Qed.

Lemma trajectory_weights_inv (m : EstimatedMSM) (out : list (list float)) :
  trajectory_weights m = Ok out ->
  exists W wtot,
    unnormalized_weights m = Ok (W, wtot) /\
    grand_total m = Ok wtot /\
    out = map (map (fun x => (x / wtot)%float)) W.
Proof.
  unfold trajectory_weights, grand_total. intros H.
  apply bindR_ok in H as ([W wtot] & HW & H). injection H as <-.
  exists W, wtot. rewrite HW. auto.
Qed.

Lemma getitem_nonneg_inv {A} (a : list A) (s : Z) (x : A) :
  0 <= s -> Np.getitem a s = Ok x -> a !! Z.to_nat s = Some x.
Proof.
  intros Hs. unfold Np.getitem, Np.norm_index.
  apply Z.leb_le in Hs as Hs'. rewrite Hs'. simpl.
  destruct (s <? Z.of_nat (length a)); simpl.
  - destruct (a !! Z.to_nat s); [by intros [= ->] | discriminate].
  - assert ((s <? 0) = false) as -> by (apply Z.ltb_ge; lia).
    rewrite andb_false_r. discriminate.
Qed.

(** C7 (as stated) fails: when no frame carries stationary mass the total
    is zero, the division is [0/0], and the frames outside the active set
    get NaN, not 0. *)
Lemma inactive_frame_gets_nan :
  exists m, __init__ args_no_mass = Ok m /\
            trajectory_weights m = Ok [[nan; nan]] /\
            ~ inactive_frames_weigh_zero m.
Proof.
  eexists; split; [reflexivity|]. split; [reflexivity|].
  intros H.
  destruct (H [[nan; nan]] eq_refl 0%nat 0%nat [1; 1] 1)
    as (o & x & Ho & Hx & Hz); try reflexivity; [lia | solve_not_elem |].
  injection Ho as <-. injection Hx as <-. discriminate.
Qed.

(** C7 (amended). On a model with a valid active set on which the loop of
    [trajectory_weights] reaches a total, [trajectory_weights] returns,
    and in its output every frame whose label denotes a full state that is
    not in the active set (a label in [0, nstates_full) denotes itself, a
    negative label [s] is read by numpy as [s + nstates_full]) has weight
    zero if the total the weights are divided by is neither zero nor NaN,
    and has weight NaN if that total is zero. *)
Theorem inactive_frames_weigh_zero_or_nan (m : EstimatedMSM)
    (wtot : float) :
  valid_active_set (_nstates_full m) (_active_set m) ->
  grand_total m = Ok wtot ->
  exists out,
    trajectory_weights m = Ok out /\
    forall (i t : nat) (dtraj : list Z) (s : Z) (k : nat),
      _dtrajs_full m !! i = Some dtraj -> dtraj !! t = Some s ->
      Np.norm_index (_nstates_full m) s = Ok k ->
      Z.of_nat k ∉ _active_set m ->
      exists o x,
        out !! i = Some o /\ o !! t = Some x /\
        (is_nan wtot = false -> is_zero wtot = false -> is_zero x = true) /\
        (is_zero wtot = true -> is_nan x = true).
Proof.
  intros Hv Htot. unfold grand_total in Htot.
  apply bindR_ok in Htot as ([W wtot'] & HW & Htot).
  simpl in Htot. injection Htot as ->.
  exists (map (map (fun x => (x / wtot)%float)) W).
  split; [unfold trajectory_weights; by rewrite HW|].
  intros i t dtraj s k Hi Ht Hk Hnotin.
  apply unnormalized_weights_inv in HW as (sd & _ & Hput & HW).
  destruct (mapR_lookup _ _ _ _ _ HW Hi) as (w & Hw & Htake).
  destruct (mapR_lookup _ _ _ _ _ Htake Ht) as (x & Hx & Hget).
  unfold Np.getitem in Hget. apply bindR_ok in Hget as (k' & Hk' & Hget).
  apply put_valid_spec in Hput as (vs & _ & Hlen & _ & Hother);
    [|by rewrite length_replicate].
  assert (k' = k) as ->.
  { rewrite Hlen, length_replicate, Hk in Hk'. by injection Hk'. }
  specialize (Hother (Z.of_nat k) (Nat2Z.is_nonneg k) Hnotin).
  rewrite Nat2Z.id in Hother. rewrite Hother in Hget.
  destruct (replicate (_nstates_full m) 0%float !! k) as [z|] eqn:Hz;
    [|discriminate].
  injection Hget as <-. apply lookup_replicate in Hz as [-> _].
  exists (map (fun x => (x / wtot)%float) w), (0 / wtot)%float.
  split; [by rewrite list_lookup_fmap, Hw|].
  split; [by rewrite list_lookup_fmap, Hx|].
  split; [by apply zero_div | by apply zero_div_zero].
Qed.

Lemma inactive_frames_weigh_zero_or_nan_witness :
  (exists m,
      __init__ args_negative_frame = Ok m /\
      trajectory_weights m
        = Ok [[0.5 / 0.75; 0.25 / 0.75; 0 / 0.75]]%float /\
      exists out o x,
        trajectory_weights m = Ok out /\
        out !! 0%nat = Some o /\ o !! 2%nat = Some x /\
        is_zero x = true) /\
  (exists m,
      __init__ args_no_mass = Ok m /\
      exists out o x,
        trajectory_weights m = Ok out /\
        out !! 0%nat = Some o /\ o !! 0%nat = Some x /\
        is_nan x = true).
Proof.
  split.
  - eexists. split; [reflexivity|]. split; [vm_compute; reflexivity|].
    match goal with
    | |- exists out o x, trajectory_weights ?m = _ /\ _ =>
        destruct (inactive_frames_weigh_zero_or_nan m 0.75%float
                    valid_active_set_five eq_refl) as (out & Hout & Hframes)
    end.
    destruct (Hframes 0%nat 2%nat [0; -1; -2] (-2) 3%nat eq_refl eq_refl
                eq_refl) as (o & x & Ho & Hx & Hzero & _);
      [simpl; solve_not_elem|].
    exists out, o, x. repeat (split; [assumption|]).
    apply Hzero; reflexivity.
  - eexists. split; [reflexivity|].
    match goal with
    | |- exists out o x, trajectory_weights ?m = _ /\ _ =>
        destruct (inactive_frames_weigh_zero_or_nan m 0%float)
          as (out & Hout & Hframes)
    end.
    + split.
      * apply NoDup_cons; split; [solve_not_elem | apply NoDup_nil_2].
      * apply Forall_cons; split; [simpl; lia | apply Forall_nil_2].
    + reflexivity.
    + destruct (Hframes 0%nat 0%nat [1; 1] 1 1%nat eq_refl eq_refl eq_refl)
        as (o & x & Ho & Hx & _ & Hnan); [simpl; solve_not_elem|].
      exists out, o, x. repeat (split; [assumption|]).
      apply Hnan; reflexivity.
Defined.




(** C1 (the code at a failing input). With two trajectories over two
    active states of stationary probability 1/2 each, the loop adds the
    sum of the whole list collected so far after each append, so the total
    is 1 + 2 = 3 instead of 2: [trajectory_weights] returns one weight
    array per trajectory, of the trajectory's length, but the weights sum
    to 2/3, not to 1 within 1e-9. With a second trajectory of another
    length the sum over the collected list is not defined and the call
    raises [ValueError]. *)
Theorem trajectory_weights_two_trajectories :
  (exists m out,
      __init__ args_two_trajs = Ok m /\
      constructed m /\
      valid_active_set (_nstates_full m) (_active_set m) /\
      valid_dtrajs (_nstates_full m) (_dtrajs_full m) /\
      trajectory_weights m = Ok out /\
      map length out = map length (_dtrajs_full m) /\
      grand_total m = Ok 3%float /\
      total_weight out = (2 / 3)%float /\
      is_one_within_1e9 (total_weight out) = false) /\
  (exists m,
      __init__ args_ragged_trajs = Ok m /\
      trajectory_weights m = Raise ValueError).
Proof.
  split.
  - eexists _, _. split; [reflexivity|].
    split; [by apply (init_constructed args_two_trajs)|].
    split.
    { split.
      - repeat (apply NoDup_cons; split; [solve_not_elem|]). apply NoDup_nil_2.
      - repeat (apply Forall_cons; split; [simpl; lia|]). apply Forall_nil_2. }
    split.
    { repeat (apply Forall_cons; split;
        [repeat (apply Forall_cons; split; [simpl; lia|]); apply Forall_nil_2|]).
      apply Forall_nil_2. }
    split; [vm_compute; reflexivity|].
    repeat split; vm_compute; reflexivity.
  - eexists. split; reflexivity.
Qed.

(** ** What accessors change *)

Lemma same_but_caches_refl (m : EstimatedMSM) : same_but_caches m m.
Proof. unfold same_but_caches. repeat split. Qed.

Lemma same_but_caches_trans (m1 m2 m3 : EstimatedMSM) :
  same_but_caches m1 m2 -> same_but_caches m2 m3 -> same_but_caches m1 m3.
Proof.
  unfold same_but_caches. intros H12 H23.
  destruct H12 as (?&?&?&?&?&?&?&?&?&?&?&?),
           H23 as (?&?&?&?&?&?&?&?&?&?&?&?).
  repeat split; congruence.
Qed.

Lemma discrete_trajectories_active_state (m : EstimatedMSM) :
  snd (discrete_trajectories_active m) = m \/
  exists acc, snd (discrete_trajectories_active m)
              = set_dtrajs_active m (Some acc).
Proof.
  unfold discrete_trajectories_active.
  destruct (_check_is_estimated m); [|by left].
  destruct (dtrajs_active_loop _ _ _) as [r acc]. right. by exists acc.
Qed.

Lemma active_state_indexes_state (index_states : index_builder)
    (m : EstimatedMSM) :
  snd (active_state_indexes index_states m) = m \/
  exists table,
    _active_state_indexes m = None /\
    fst (active_state_indexes index_states m) = Ok table /\
    snd (active_state_indexes index_states m)
      = set_active_state_indexes m (Some table).
Proof.
  unfold active_state_indexes.
  destruct (_check_is_estimated m); [|by left].
  destruct (_active_state_indexes m); [by left|].
  destruct (bindR _ _) as [table|]; [|by left].
  right. by exists table.
Qed.

Lemma run_accessor_unchanged (index_states : index_builder) (acc : accessor)
    (m : EstimatedMSM) :
  acc <> DiscreteTrajectoriesActive -> acc <> ActiveStateIndexes ->
  snd (run_accessor index_states acc m) = m.
Proof. destruct acc; simpl; congruence. Qed.

Lemma run_accessor_same_but_caches (index_states : index_builder)
    (acc : accessor) (m : EstimatedMSM) :
  same_but_caches m (snd (run_accessor index_states acc m)).
Proof.
  destruct acc; simpl; try apply same_but_caches_refl.
  - destruct (discrete_trajectories_active m) as [r m'] eqn:E. simpl.
    destruct (discrete_trajectories_active_state m) as [H|[acc H]];
      rewrite E in H; simpl in H; subst m'.
    + apply same_but_caches_refl.
    + unfold same_but_caches. simpl. repeat split.
  - destruct (active_state_indexes index_states m) as [r m'] eqn:E. simpl.
    destruct (active_state_indexes_state index_states m)
      as [H|(table & _ & _ & H)]; rewrite E in H; simpl in H; subst m'.
    + apply same_but_caches_refl.
    + unfold same_but_caches. simpl. repeat split.
Qed.

Lemma run_accessor_keeps_table (index_states : index_builder)
    (acc : accessor) (m : EstimatedMSM) (table : index_table) :
  _active_state_indexes m = Some table ->
  _active_state_indexes (snd (run_accessor index_states acc m)) = Some table.
Proof.
  intros Hc. destruct acc; simpl; try done.
  - destruct (discrete_trajectories_active m) as [r m'] eqn:E. simpl.
    destruct (discrete_trajectories_active_state m) as [H|[acc H]];
      rewrite E in H; simpl in H; subst m'; done.
  - destruct (active_state_indexes index_states m) as [r m'] eqn:E. simpl.
    destruct (active_state_indexes_state index_states m)
      as [H|(t & Hnone & _ & _)]; [|congruence].
    rewrite E in H; simpl in H. by subst m'.
Qed.

Lemma run_accessors_keep (index_states : index_builder)
    (accs : list accessor) (m : EstimatedMSM) (table : index_table) :
  _active_state_indexes m = Some table ->
  _active_state_indexes (run_accessors index_states accs m) = Some table /\
  same_but_caches m (run_accessors index_states accs m).
Proof.
  unfold run_accessors. revert m.
  induction accs as [|acc accs IH]; simpl; intros m Hc.
  - split; [done | apply same_but_caches_refl].
  - destruct (IH (snd (run_accessor index_states acc m))) as [H1 H2].
    { by apply run_accessor_keeps_table. }
    split; [done|].
    eapply same_but_caches_trans; [apply run_accessor_same_but_caches | done].
Qed.

(** ** The cached index table *)

Lemma active_state_indexes_hit (index_states : index_builder)
    (m : EstimatedMSM) (table : index_table) :
  _is_estimated m = true -> _active_state_indexes m = Some table ->
  active_state_indexes index_states m = (Ok table, m).
Proof.
  intros He Hc. unfold active_state_indexes, _check_is_estimated.
  by rewrite He, Hc.
Qed.

Lemma active_state_indexes_ok (index_states : index_builder)
    (m : EstimatedMSM) (table : index_table) :
  fst (active_state_indexes index_states m) = Ok table ->
  _is_estimated m = true /\
  _active_state_indexes (snd (active_state_indexes index_states m))
    = Some table /\
  (_active_state_indexes m = None ->
   index_states (_dtrajs_full m) (_active_set m) = Ok table).
Proof.
  unfold active_state_indexes, discrete_trajectories_full, active_set,
    _check_is_estimated.
  destruct (_is_estimated m); simpl; [|discriminate].
  destruct (_active_state_indexes m) as [t|] eqn:Hc; simpl.
  - intros [= ->]. split; [done|]. split; [done | discriminate].
  - destruct (index_states _ _) as [t|e]; simpl; [|discriminate].
    intros [= ->]. auto.
Qed.

(** C8. Two accesses to [active_state_indexes] return the same result and
    the second changes nothing. When the first returns a table, the table
    is the builder's result if the attribute was missing; it is then
    stored, a later access returns the stored table whatever the builder
    would compute, and no sequence of accessor calls removes or replaces
    it. *)
Theorem active_state_indexes_cached (index_states : index_builder)
    (m : EstimatedMSM) :
  let r1 := fst (active_state_indexes index_states m) in
  let m1 := snd (active_state_indexes index_states m) in
  active_state_indexes index_states m1 = (r1, m1) /\
  forall table : index_table,
    r1 = Ok table ->
    (_active_state_indexes m = None ->
     index_states (_dtrajs_full m) (_active_set m) = Ok table) /\
    _active_state_indexes m1 = Some table /\
    (forall other : index_builder,
        active_state_indexes other m1 = (Ok table, m1)) /\
    (forall accs : list accessor,
        let m2 := run_accessors index_states accs m1 in
        _active_state_indexes m2 = Some table /\
        active_state_indexes index_states m2 = (Ok table, m2)).
Proof.
  intros r1 m1.
  assert (forall table, r1 = Ok table ->
            _is_estimated m1 = true /\ _active_state_indexes m1 = Some table)
    as Hm1.
  { intros table Hr. apply active_state_indexes_ok in Hr as (He & Hc & _).
    split; [|done].
    destruct (run_accessor_same_but_caches index_states ActiveStateIndexes m)
      as (_&_&_&_&_&_&_&_&_&_&_&He').
    simpl in He'. destruct (active_state_indexes index_states m) as [r m'].
    simpl in *. subst m1. congruence. }
  split.
  - destruct r1 as [table|e] eqn:Hr.
    + destruct (Hm1 table eq_refl) as [He Hc].
      by apply active_state_indexes_hit.
    + destruct (active_state_indexes_state index_states m)
        as [H|(t & _ & Hok & _)]; [|subst r1; congruence].
      fold m1 in H. rewrite H.
      rewrite (surjective_pairing (active_state_indexes index_states m)).
      fold r1. fold m1. by rewrite Hr, H.
  - intros table Hr. destruct (Hm1 table Hr) as [He Hc].
    apply active_state_indexes_ok in Hr as Hok.
    destruct Hok as (_ & _ & Hbuilt).
    split; [done|]. split; [done|]. split.
    + intros other. by apply active_state_indexes_hit.
    + intros accs m2.
      destruct (run_accessors_keep index_states accs m1 table Hc)
        as [Hc2 Hsame].
      split; [done|]. apply active_state_indexes_hit; [|done].
      destruct Hsame as (_&_&_&_&_&_&_&_&_&_&_&He2). fold m2 in He2.
      congruence.
Qed.

Lemma active_state_indexes_cached_witness :
  exists m table,
    __init__ args_five_states = Ok m /\
    fst (active_state_indexes index_states m) = Ok table /\
    table = [[(0, 0); (1, 1)]; [(0, 1); (1, 2)]; [(0, 2); (1, 0)]] /\
    fst (active_state_indexes index_states
           (snd (active_state_indexes index_states m))) = Ok table.
Proof.
  eexists _, _. split; [reflexivity|]. split; [reflexivity|].
  split; [reflexivity|].
  match goal with
  | |- fst (active_state_indexes _ (snd (active_state_indexes _ ?m))) = _ =>
      destruct (active_state_indexes_cached index_states m) as [_ H]
  end.
  destruct (H _ eq_refl) as (_ & _ & Hother & _).
  rewrite (Hother index_states). reflexivity.
Defined.

(** ** Copies live in new locations *)

Module HeapFacts.
Import Heap.

Lemma read_array_prefix (h h' : heap) (l : loc) (a : list Z) :
  h `prefix_of` h' -> read_array h l = Some a -> read_array h' l = Some a.
Proof.
  unfold read_array. intros Hp H.
  destruct (h !! l) as [o|] eqn:E; [|discriminate].
  by rewrite (prefix_lookup_Some _ _ _ _ E Hp).
Qed.

Lemma read_matrix_prefix (h h' : heap) (l : loc) (c : matrix Z) :
  h `prefix_of` h' -> read_matrix h l = Some c -> read_matrix h' l = Some c.
Proof.
  unfold read_matrix. intros Hp H.
  destruct (h !! l) as [o|] eqn:E; [|discriminate].
  by rewrite (prefix_lookup_Some _ _ _ _ E Hp).
Qed.

Lemma read_items_prefix (h h' : heap) (l : loc) (items : list loc) :
  h `prefix_of` h' -> read_items h l = Some items ->
  read_items h' l = Some items.
Proof.
  unfold read_items. intros Hp H.
  destruct (h !! l) as [o|] eqn:E; [|discriminate].
  by rewrite (prefix_lookup_Some _ _ _ _ E Hp).
Qed.

Lemma read_arrays_Some (h : heap) (l : loc) (v : list (list Z)) :
  read_arrays h l = Some v <->
  exists items, read_items h l = Some items /\
                Forall2 (fun x y => read_array h x = Some y) items v.
Proof.
  unfold read_arrays. destruct (read_items h l) as [items|].
  - rewrite mapM_Some. split; [eauto|]. by intros (? & [= <-] & ?).
  - split; [discriminate | by intros (? & ? & _)].
Qed.

Lemma read_arrays_prefix (h h' : heap) (l : loc) (v : list (list Z)) :
  h `prefix_of` h' -> read_arrays h l = Some v -> read_arrays h' l = Some v.
Proof.
  rewrite !read_arrays_Some. intros Hp (items & Hi & Hv).
  exists items. split; [by eapply read_items_prefix|].
  eapply Forall2_impl; [exact Hv|]. intros x y. by apply read_array_prefix.
Qed.

Lemma copy_leaf_spec (h h' : heap) (x x' : loc) :
  copy_leaf h x = Some (x', h') ->
  x' = length h /\ exists o, h' = h ++ [o] /\ h !! x = Some o.
Proof.
  unfold copy_leaf, alloc.
  destruct (h !! x) as [[a|c|items]|]; intros [= <- <-]; eauto.
Qed.

Lemma memo_ok_prefix (h0 h h' : heap) (memo : list (loc * loc)) :
  h `prefix_of` h' -> memo_ok h0 h memo -> memo_ok h0 h' memo.
Proof.
  intros Hp Hm x x' Hx. destruct (Hm x x' Hx) as [Hr Hread].
  apply prefix_length in Hp as Hlen. split; [lia|].
  intros a Ha. eapply read_array_prefix; eauto.
Qed.

Lemma copy_items_spec (h0 : heap) (items : list loc) :
  forall (h : heap) (memo : list (loc * loc)) (items' : list loc)
         (h' : heap),
    h0 `prefix_of` h -> memo_ok h0 h memo ->
    copy_items h memo items = Some (items', h') ->
    h `prefix_of` h' /\
    Forall (fun x' => (length h0 <= x' < length h')%nat) items' /\
    forall v, Forall2 (fun x y => read_array h0 x = Some y) items v ->
              Forall2 (fun x' y => read_array h' x' = Some y) items' v.
Proof.
  induction items as [|x rest IH]; simpl; intros h memo items' h' Hp Hm H.
  - injection H as <- <-. split; [done|]. split; [constructor|].
    intros v Hv. inversion Hv. constructor.
  - destruct (memo_find memo x) as [x'|] eqn:Hfind.
    + destruct (copy_items h memo rest) as [[rest' h2]|] eqn:Hrest;
        [|discriminate].
      injection H as <- <-.
      destruct (IH _ _ _ _ Hp Hm Hrest) as (Hp2 & Hfresh & Hread).
      destruct (Hm x x' Hfind) as [Hx' Hrx].
      apply prefix_length in Hp2 as Hlen.
      split; [done|]. split; [constructor; [lia | done]|].
      intros v Hv. inversion Hv as [|? y ? ys Hy Hys]; subst.
      constructor; [|by apply Hread].
      eapply read_array_prefix; eauto.
    + destruct (copy_leaf h x) as [[x' h1]|] eqn:Hleaf; [|discriminate].
      destruct (copy_items h1 ((x, x') :: memo) rest) as [[rest' h2]|]
        eqn:Hrest; [|discriminate].
      injection H as <- <-.
      apply copy_leaf_spec in Hleaf as (-> & o & -> & Ho).
      assert (h `prefix_of` h ++ [o]) as Hp1 by by apply prefix_app_r.
      apply prefix_length in Hp as Hlen0.
      assert (forall a, read_array h0 x = Some a ->
                        read_array (h ++ [o]) (length h) = Some a) as Hnew.
      { intros a Ha. apply (read_array_prefix _ _ _ _ Hp) in Ha.
        unfold read_array in *. rewrite Ho in Ha.
        rewrite lookup_app_r by lia. by rewrite Nat.sub_diag. }
      destruct (IH (h ++ [o]) ((x, length h) :: memo) rest' h2)
        as (Hp2 & Hfresh & Hread); [by etrans | | done |].
      { intros y y'. simpl. destruct (Nat.eqb_spec x y) as [->|Hne].
        - intros [= <-]. rewrite length_app. simpl. split; [lia | done].
        - intros Hy. by eapply memo_ok_prefix. }
      apply prefix_length in Hp2 as Hlen2.
      rewrite length_app in Hlen2. simpl in Hlen2.
      split; [by etrans|]. split; [constructor; [lia | done]|].
      intros v Hv. inversion Hv as [|? y ? ys Hy Hys]; subst.
      constructor; [|by apply Hread].
      eapply read_array_prefix; eauto.
Qed.

(** [deepcopy] extends the heap, returns a location that did not exist
    before, keeps the content, and a copied list refers to new
    locations only. *)
Lemma deepcopy_spec (h h' : heap) (l l' : loc) :
  deepcopy h l = Some (l', h') ->
  h `prefix_of` h' /\
  (length h <= l' < length h')%nat /\
  (forall a, read_array h l = Some a -> read_array h' l' = Some a) /\
  (forall c, read_matrix h l = Some c -> read_matrix h' l' = Some c) /\
  (forall v, read_arrays h l = Some v ->
     exists items',
       read_items h' l' = Some items' /\
       Forall (fun x' => (length h <= x' < length h')%nat) items' /\
       Forall2 (fun x' y => read_array h' x' = Some y) items' v).
Proof.
  unfold deepcopy. destruct (h !! l) as [o|] eqn:Ho; [|discriminate].
  assert (copy_leaf h l = Some (l', h') ->
          exists o', h' = h ++ [o'] /\ l' = length h /\ o' = o) as Hleaf.
  { intros H. apply copy_leaf_spec in H as (-> & o' & -> & Ho').
    exists o'. rewrite Ho in Ho'. injection Ho' as <-. auto. }
  destruct o as [a|c|items].
  - intros H. destruct (Hleaf H) as (o' & -> & -> & ->).
    rewrite length_app. simpl.
    split; [by apply prefix_app_r|]. split; [lia|].
    unfold read_array, read_matrix, read_arrays, read_items.
    rewrite Ho, lookup_app_r, Nat.sub_diag by lia. simpl.
    repeat split; try done.
  - intros H. destruct (Hleaf H) as (o' & -> & -> & ->).
    rewrite length_app. simpl.
    split; [by apply prefix_app_r|]. split; [lia|].
    unfold read_array, read_matrix, read_arrays, read_items.
    rewrite Ho, lookup_app_r, Nat.sub_diag by lia. simpl.
    repeat split; try done.
  - clear Hleaf.
    destruct (copy_items h [] items) as [[items' h1]|] eqn:Hitems;
      [|discriminate].
    intros [= <- <-].
    destruct (copy_items_spec h items h [] items' h1)
      as (Hp & Hfresh & Hread); [done | | done |].
    { intros x x'. simpl. discriminate. }
    apply prefix_length in Hp as Hlen.
    assert (h1 `prefix_of` h1 ++ [PyList items']) as Hp1
      by by apply prefix_app_r.
    rewrite length_app. simpl.
    split; [by etrans|]. split; [lia|].
    split; [unfold read_array; by rewrite Ho|].
    split; [unfold read_matrix; by rewrite Ho|].
    intros v Hv. apply read_arrays_Some in Hv as (items0 & Hi & Hv).
    unfold read_items in Hi. rewrite Ho in Hi. injection Hi as <-.
    exists items'. split.
    + unfold read_items.
      rewrite lookup_app_r, Nat.sub_diag by lia. done.
    + split.
      * eapply Forall_impl; [exact Hfresh|]. simpl. intros; lia.
      * eapply Forall2_impl; [by apply Hread|].
        intros x y. by apply read_array_prefix.
Qed.

Lemma owned_array_prefix (n0 : nat) (h h' : heap) (l : loc) (a : list Z) :
  h `prefix_of` h' -> owned_array n0 h l a -> owned_array n0 h' l a.
Proof.
  intros Hp [Hl Hr]. apply prefix_length in Hp as Hlen.
  split; [lia | by eapply read_array_prefix].
Qed.

Lemma owned_matrix_prefix (n0 : nat) (h h' : heap) (l : loc)
    (c : matrix Z) :
  h `prefix_of` h' -> owned_matrix n0 h l c -> owned_matrix n0 h' l c.
Proof.
  intros Hp [Hl Hr]. apply prefix_length in Hp as Hlen.
  split; [lia | by eapply read_matrix_prefix].
Qed.

Lemma owned_arrays_prefix (n0 : nat) (h h' : heap) (l : loc)
    (v : list (list Z)) :
  h `prefix_of` h' -> owned_arrays n0 h l v -> owned_arrays n0 h' l v.
Proof.
  intros Hp (Hl & items & Hi & Hfresh & Hv).
  apply prefix_length in Hp as Hlen.
  split; [lia|]. exists items. split; [by eapply read_items_prefix|]. split.
  - eapply Forall_impl; [exact Hfresh|]. simpl. intros; lia.
  - eapply Forall2_impl; [exact Hv|]. intros x y.
    by apply read_array_prefix.
Qed.

Lemma owned_array_agree (n0 : nat) (h1 h2 : heap) (l : loc) (a : list Z) :
  agree n0 h1 h2 -> owned_array n0 h1 l a -> read_array h2 l = Some a.
Proof.
  intros [_ Hag] [Hl Hr]. unfold read_array in *. by rewrite Hag.
Qed.

Lemma owned_matrix_agree (n0 : nat) (h1 h2 : heap) (l : loc)
    (c : matrix Z) :
  agree n0 h1 h2 -> owned_matrix n0 h1 l c -> read_matrix h2 l = Some c.
Proof.
  intros [_ Hag] [Hl Hr]. unfold read_matrix in *. by rewrite Hag.
Qed.

Lemma owned_arrays_agree (n0 : nat) (h1 h2 : heap) (l : loc)
    (v : list (list Z)) :
  agree n0 h1 h2 -> owned_arrays n0 h1 l v -> read_arrays h2 l = Some v.
Proof.
  intros Hag (Hl & items & Hi & Hfresh & Hv).
  apply read_arrays_Some. exists items. split.
  - destruct Hag as [_ Hag]. unfold read_items in *. by rewrite Hag.
  - clear Hi. induction Hv as [|x y items v Hxy _ IH]; [constructor|].
    apply Forall_cons in Hfresh as [Hx Hfresh].
    constructor; [|by apply IH].
    eapply owned_array_agree; [exact Hag|]. by split.
Qed.

Lemma agree_refl (n0 : nat) (h : heap) : agree n0 h h.
Proof. by split. Qed.

Lemma apply_step_agree (n0 : nat) (h1 h2 : heap) (st : step) :
  agree n0 h1 h2 -> outside n0 (length h1) st ->
  agree n0 h1 (apply_step h2 st).
Proof.
  intros [Hlen Hag] Hout. destruct st as [l o|o]; simpl in *.
  - split; [by rewrite length_insert|].
    intros l' Hl'. rewrite list_lookup_insert_ne by lia. by apply Hag.
  - split; [rewrite length_app; lia|].
    intros l' Hl'. rewrite lookup_app_l by lia. by apply Hag.
Qed.

Lemma apply_steps_agree (n0 : nat) (h1 : heap) (steps : list step) :
  Forall (outside n0 (length h1)) steps ->
  agree n0 h1 (apply_steps h1 steps).
Proof.
  unfold apply_steps. intros Hsteps.
  assert (forall h2, agree n0 h1 h2 ->
            agree n0 h1 (fold_left apply_step steps h2)) as Hgen.
  { induction Hsteps as [|st steps Hst _ IH]; simpl; intros h2 Hag; [done|].
    apply IH. by apply apply_step_agree. }
  apply Hgen, agree_refl.
Qed.

Lemma snapshot_agree (n0 : nat) (h1 h2 : heap) (s : self_ref)
    (m : EstimatedMSM) :
  owned_model n0 h1 s m -> agree n0 h1 h2 -> snapshot h2 s = Some m.
Proof.
  intros (Ha & Hd & HCf & HCa & Hc & Hf & Hm) Hag. unfold snapshot.
  rewrite (owned_array_agree _ _ _ _ _ Hag Ha). simpl.
  rewrite (owned_arrays_agree _ _ _ _ _ Hag Hd). simpl.
  rewrite (owned_matrix_agree _ _ _ _ _ Hag HCf). simpl.
  rewrite (owned_matrix_agree _ _ _ _ _ Hag HCa). simpl.
  rewrite (owned_arrays_agree _ _ _ _ _ Hag Hc). simpl.
  rewrite (owned_array_agree _ _ _ _ _ Hag Hf). simpl.
  f_equal. destruct m. simpl in *. injection Hm. intros. subst.
  reflexivity.
Qed.

Lemma owned_model_with_caches (n0 : nat) (h : heap) (s : self_ref)
    (m : EstimatedMSM) (c1 : option (list (list Z)))
    (c2 : option index_table) :
  owned_model n0 h s m ->
  owned_model n0 h (with_caches s c1 c2)
    (set_dtrajs_active (set_active_state_indexes m c2) c1).
Proof.
  intros (Ha & Hd & HCf & HCa & Hc & Hf & Hm).
  unfold owned_model. simpl. repeat (split; [assumption|]).
  destruct m. simpl in *. injection Hm. intros. subst. reflexivity.
Qed.

(** The constructor on references computes what the constructor on
    values computes, and leaves every attribute in objects of its own. *)
Lemma init_ref_spec (h0 h1 : heap) (a : args_ref) (av : init_args)
    (s : self_ref) :
  read_args h0 a = Some av ->
  init_ref h0 a = Some (Ok s, h1) ->
  exists m, __init__ av = Ok m /\ owned_model (length h0) h1 s m.
Proof.
  unfold read_args, init_ref. intros Hargs Hinit.
  destruct (read_arrays h0 (ref_dtrajs a)) as [dtrajs|] eqn:Rd;
    [simpl in Hargs | discriminate].
  destruct (read_array h0 (ref_active_set a)) as [aset|] eqn:Ra;
    [simpl in Hargs | discriminate].
  destruct (read_arrays h0 (ref_connected_sets a)) as [csets|] eqn:Rc;
    [simpl in Hargs | discriminate].
  destruct (read_matrix h0 (ref_C_full a)) as [Cf|] eqn:RCf;
    [simpl in Hargs | discriminate].
  destruct (read_matrix h0 (ref_C_active a)) as [Ca|] eqn:RCa;
    [simpl in Hargs | discriminate].
  injection Hargs as <-.
  destruct (deepcopy h0 (ref_active_set a)) as [[l1 g1]|] eqn:D1;
    [simpl in Hinit | discriminate].
  destruct (deepcopy g1 (ref_dtrajs a)) as [[l2 g2]|] eqn:D2;
    [simpl in Hinit | discriminate].
  destruct (deepcopy g2 (ref_C_full a)) as [[l3 g3]|] eqn:D3;
    [simpl in Hinit | discriminate].
  destruct (deepcopy g3 (ref_C_active a)) as [[l4 g4]|] eqn:D4;
    [simpl in Hinit | discriminate].
  destruct (deepcopy g4 (ref_connected_sets a)) as [[l5 g5]|] eqn:D5;
    [simpl in Hinit | discriminate].
  apply deepcopy_spec in D1 as (P1 & L1 & A1 & _ & _).
  apply deepcopy_spec in D2 as (P2 & L2 & _ & _ & V2).
  apply deepcopy_spec in D3 as (P3 & L3 & _ & M3 & _).
  apply deepcopy_spec in D4 as (P4 & L4 & _ & M4 & _).
  apply deepcopy_spec in D5 as (P5 & L5 & _ & _ & V5).
  pose proof (prefix_length _ _ P1) as N1.
  pose proof (prefix_length _ _ P2) as N2.
  pose proof (prefix_length _ _ P3) as N3.
  pose proof (prefix_length _ _ P4) as N4.
  pose proof (prefix_length _ _ P5) as N5.
  assert (h0 `prefix_of` g2) as Q2 by by etrans.
  assert (h0 `prefix_of` g3) as Q3 by by etrans.
  assert (h0 `prefix_of` g4) as Q4 by by etrans.
  assert (h0 `prefix_of` g5) as Q5 by by etrans.
  rewrite (read_matrix_prefix _ _ _ _ Q5 RCf) in Hinit. simpl in Hinit.
  assert (owned_array (length h0) g1 l1 aset) as O1.
  { split; [lia | by apply A1]. }
  assert (owned_arrays (length h0) g2 l2 dtrajs) as O2.
  { destruct (V2 dtrajs) as (items & Hi & Hfresh & Hv);
      [by eapply read_arrays_prefix|].
    split; [lia|]. exists items. split; [done|]. split; [|done].
    eapply Forall_impl; [exact Hfresh|]. simpl. intros; lia. }
  assert (owned_matrix (length h0) g3 l3 Cf) as O3.
  { split; [lia|]. apply M3. by eapply read_matrix_prefix. }
  assert (owned_matrix (length h0) g4 l4 Ca) as O4.
  { split; [lia|]. apply M4. by eapply read_matrix_prefix. }
  assert (owned_arrays (length h0) g5 l5 csets) as O5.
  { destruct (V5 csets) as (items & Hi & Hfresh & Hv);
      [by eapply read_arrays_prefix|].
    split; [lia|]. exists items. split; [done|]. split; [|done].
    eapply Forall_impl; [exact Hfresh|]. simpl. intros; lia. }
  assert (g1 `prefix_of` g5) as P15 by (etrans; [|exact P5]; by do 2 etrans).
  assert (g2 `prefix_of` g5) as P25 by (etrans; [|exact P5]; by etrans).
  assert (g3 `prefix_of` g5) as P35 by by etrans.
  apply (owned_array_prefix _ _ _ _ _ P15) in O1.
  apply (owned_arrays_prefix _ _ _ _ _ P25) in O2.
  apply (owned_matrix_prefix _ _ _ _ _ P35) in O3.
  apply (owned_matrix_prefix _ _ _ _ _ P5) in O4.
  destruct O1 as [R1 O1]. rewrite O1 in Hinit. simpl in Hinit.
  unfold __init__. simpl.
  destruct (build_full2active (length Cf) aset) as [f2a|e] eqn:Hb;
    [|discriminate].
  injection Hinit as <- <-. simpl.
  eexists. split; [reflexivity|].
  assert (g5 `prefix_of` g5 ++ [IntArray f2a]) as P6 by by apply prefix_app_r.
  unfold owned_model. simpl.
  split; [eapply owned_array_prefix; [exact P6 | by split]|].
  split; [by eapply owned_arrays_prefix|].
  split; [by eapply owned_matrix_prefix|].
  split; [by eapply owned_matrix_prefix|].
  split; [by eapply owned_arrays_prefix|].
  split; [|done].
  split; [rewrite length_app; simpl; lia|].
  unfold read_array. rewrite lookup_app_r by lia.
  by rewrite Nat.sub_diag.
Qed.

End HeapFacts.

(** ** Isolation from the constructor's arguments *)

(** C10. Let the constructor run on arguments held in a heap. The object
    it returns has the attribute values of the constructor on the
    arguments' content. Whatever the caller then does to objects that
    existed before the call (the trajectories, the active set, the
    connected sets, the count matrices) or to objects created later, the
    object keeps these attribute values, with whatever the two cached
    attributes hold by then, and every accessor returns what it returns
    on them. An accessor leaves all attributes but the two cached ones as
    they are, and an accessor other than [discrete_trajectories_active]
    and [active_state_indexes] leaves all attributes as they are. *)
Theorem model_isolated_from_arguments (h0 h1 : Heap.heap)
    (a : Heap.args_ref) (av : init_args) (s : Heap.self_ref) :
  Heap.read_args h0 a = Some av ->
  Heap.init_ref h0 a = Some (Ok s, h1) ->
  (exists m,
      __init__ av = Ok m /\
      Heap.snapshot h1 s = Some m /\
      forall (steps : list Heap.step) (c1 : option (list (list Z)))
             (c2 : option index_table),
        Forall (Heap.outside (length h0) (length h1)) steps ->
        let h2 := Heap.apply_steps h1 steps in
        let s' := Heap.with_caches s c1 c2 in
        let m' := set_dtrajs_active (set_active_state_indexes m c2) c1 in
        Heap.snapshot h2 s' = Some m' /\
        Heap.snapshot h1 s' = Some m' /\
        forall (index_states : index_builder) (acc : accessor),
          Heap.access index_states acc h2 s'
            = Some (fst (run_accessor index_states acc m'))) /\
  (forall (index_states : index_builder) (acc : accessor)
          (m : EstimatedMSM),
      same_but_caches m (snd (run_accessor index_states acc m)) /\
      (acc <> DiscreteTrajectoriesActive -> acc <> ActiveStateIndexes ->
       snd (run_accessor index_states acc m) = m)).
Proof.
  intros Hargs Hinit. split.
  - destruct (HeapFacts.init_ref_spec _ _ _ _ _ Hargs Hinit) as (m & Hm & Ho).
    exists m. split; [done|].
    split; [eapply HeapFacts.snapshot_agree; [exact Ho|];
            apply HeapFacts.agree_refl|].
    intros steps c1 c2 Hsteps h2 s' m'.
    pose proof (HeapFacts.owned_model_with_caches _ _ _ _ c1 c2 Ho) as Ho'.
    pose proof (HeapFacts.apply_steps_agree _ _ _ Hsteps) as Hag.
    assert (Heap.snapshot h2 s' = Some m') as Hsnap
      by (eapply HeapFacts.snapshot_agree; [exact Ho' | exact Hag]).
    split; [done|].
    split; [eapply HeapFacts.snapshot_agree; [exact Ho'|];
            apply HeapFacts.agree_refl|].
    intros index_states acc. unfold Heap.access. by rewrite Hsnap.
  - intros index_states acc m. split.
    + apply run_accessor_same_but_caches.
    + apply run_accessor_unchanged.
Qed.

Lemma model_isolated_from_arguments_witness :
  exists s h1,
    Heap.init_ref Heap.heap_five_states Heap.refs_five_states
      = Some (Ok s, h1) /\
    let h2 := Heap.apply_steps h1 Heap.caller_steps in
    Heap.read_arrays h2 (Heap.ref_dtrajs Heap.refs_five_states)
      = Some [[9; 9; 9]; [4; 0; 2; 3]] /\
    Heap.read_array h2 (Heap.ref_active_set Heap.refs_five_states)
      = Some [] /\
    Heap.access index_states DiscreteTrajectoriesFull h2 s
      = Some (Ok (VArrays [[0; 2; 4; 1]; [4; 0; 2; 3]])) /\
    Heap.access index_states ActiveSet h2 s = Some (Ok (VArray [0; 2; 4])).
Proof.
  eexists _, _. split; [vm_compute; reflexivity|].
  intros h2. split; [reflexivity|]. split; [reflexivity|].
  match goal with
  | h := Heap.apply_steps ?h1 _ |- Heap.access _ _ _ ?s = _ /\ _ =>
      destruct (model_isolated_from_arguments
                  Heap.heap_five_states h1
                  Heap.refs_five_states args_five_states s)
        as [(m & Hm & _ & Hiso) _]
  end.
  - reflexivity.
  - vm_compute. reflexivity.
  - vm_compute in Hm. injection Hm as <-.
    destruct (Hiso Heap.caller_steps None None) as (_ & _ & Hacc).
    + repeat (apply Forall_cons; split; [first [exact I | simpl; lia]|]).
      apply Forall_nil_2.
    + split; [apply (Hacc index_states DiscreteTrajectoriesFull)
             | apply (Hacc index_states ActiveSet)].
Defined.

(** * Further properties of the code *)

(** ** More on results and numpy indexing *)

Lemma mapR_lookup_inv {A B} (f : A -> result B) (l : list A) (ys : list B)
    (k : nat) (y : B) :
  mapR f l = Ok ys -> ys !! k = Some y ->
  exists x, l !! k = Some x /\ f x = Ok y.
Proof.
  intros H Hy. pose proof (mapR_length _ _ _ H) as Hlen.
  destruct (lookup_lt_is_Some_2 l k) as [x Hx].
  { rewrite <- Hlen. by eapply lookup_lt_Some. }
  destruct (mapR_lookup _ _ _ _ _ H Hx) as (y' & Hy' & Hf).
  exists x. split; [done | congruence].
Qed.

Lemma mapR_raise_inv {A B} (f : A -> result B) (l : list A) (e : exn) :
  mapR f l = Raise e -> exists x, x ∈ l /\ f x = Raise e.
Proof.
  induction l as [|x l IH]; simpl; [discriminate|].
  destruct (f x) as [y|e'] eqn:Hfx; simpl.
  - destruct (mapR f l) as [ys|e'] eqn:Hl; simpl; [discriminate|].
    intros [= ->]. destruct IH as (x' & Hin & Hx'); [done|].
    exists x'. split; [by apply list_elem_of_further | done].
  - intros [= ->]. exists x. split; [apply list_elem_of_here | done].
Qed.

Lemma mapR_app {A B} (f : A -> result B) (l1 l2 : list A) (ys1 : list B) :
  mapR f l1 = Ok ys1 ->
  mapR f (l1 ++ l2) = do ys2 <- mapR f l2; Ok (ys1 ++ ys2).
Proof.
  revert ys1; induction l1 as [|x l1 IH]; simpl; intros ys1 H.
  - injection H as <-. by destruct (mapR f l2).
  - apply bindR_ok in H as (y & Hy & H).
    apply bindR_ok in H as (ys & Hys & H). injection H as <-.
    rewrite Hy. simpl. rewrite (IH ys) by done.
    by destruct (mapR f l2).
Qed.

Lemma norm_index_lt (n : nat) (i : Z) (k : nat) :
  Np.norm_index n i = Ok k -> (k < n)%nat.
Proof.
  unfold Np.norm_index.
  destruct ((0 <=? i) && (i <? Z.of_nat n)) eqn:H1.
  - intros [= <-]. apply andb_true_iff in H1 as [H1 H2].
    apply Z.leb_le in H1. apply Z.ltb_lt in H2. lia.
  - destruct ((- Z.of_nat n <=? i) && (i <? 0)) eqn:H2; [|discriminate].
    intros [= <-]. apply andb_true_iff in H2 as [H2 H3].
    apply Z.leb_le in H2. apply Z.ltb_lt in H3. lia.
Qed.

Lemma norm_index_nonneg (n : nat) (i : Z) (k : nat) :
  0 <= i -> Np.norm_index n i = Ok k -> i = Z.of_nat k.
Proof.
  intros Hi. unfold Np.norm_index.
  destruct ((0 <=? i) && (i <? Z.of_nat n)) eqn:H1.
  - intros [= <-]. lia.
  - assert ((i <? 0) = false) as -> by (apply Z.ltb_ge; lia).
    rewrite andb_false_r. discriminate.
Qed.

Lemma norm_index_raise (n : nat) (i : Z) (e : exn) :
  Np.norm_index n i = Raise e -> e = IndexError.
Proof.
  unfold Np.norm_index.
  destruct ((0 <=? i) && (i <? Z.of_nat n)); [discriminate|].
  destruct ((- Z.of_nat n <=? i) && (i <? 0)); [discriminate|].
  by intros [= <-].
Qed.

Lemma getitem_norm {A} (a : list A) (i : Z) (x : A) :
  Np.getitem a i = Ok x <->
  exists k, Np.norm_index (length a) i = Ok k /\ a !! k = Some x.
Proof.
  unfold Np.getitem. split.
  - intros H. apply bindR_ok in H as (k & Hk & H). exists k. split; [done|].
    destruct (a !! k); [by injection H as -> | discriminate].
  - intros (k & -> & Hx). simpl. by rewrite Hx.
Qed.

Lemma getitem_raise {A} (a : list A) (i : Z) (e : exn) :
  Np.getitem a i = Raise e ->
  e = IndexError /\ (i < - Z.of_nat (length a) \/ Z.of_nat (length a) <= i).
Proof.
  unfold Np.getitem.
  destruct (Np.norm_index (length a) i) as [k|e'] eqn:Hk; simpl.
  - apply norm_index_lt in Hk.
    destruct (lookup_lt_is_Some_2 a k Hk) as [x ->]. discriminate.
  - intros [= ->]. split; [by eapply norm_index_raise|].
    destruct (Z_lt_dec i (- Z.of_nat (length a))); [by left|].
    destruct (Z_le_dec (Z.of_nat (length a)) i); [by right|].
    destruct (Z_lt_dec i 0).
    + rewrite norm_index_wrap in Hk by lia. discriminate.
    + rewrite norm_index_in_range in Hk by lia. discriminate.
Qed.

Lemma getitem_out_of_bounds {A} (a : list A) (i : Z) :
  i < - Z.of_nat (length a) \/ Z.of_nat (length a) <= i ->
  Np.getitem a i = Raise IndexError.
Proof.
  intros H. unfold Np.getitem. by rewrite norm_index_out.
Qed.

Lemma take_raise {A} (a : list A) (idx : list Z) (e : exn) :
  Np.take a idx = Raise e -> e = IndexError.
Proof.
  intros H. apply mapR_raise_inv in H as (i & _ & H).
  by apply getitem_raise in H as [-> _].
Qed.

Lemma take_out_of_bounds {A} (a : list A) (idx : list Z) (s : Z) :
  s ∈ idx -> s < - Z.of_nat (length a) \/ Z.of_nat (length a) <= s ->
  Np.take a idx = Raise IndexError.
Proof.
  intros Hin Hs. apply mapR_raise.
  - intros x _. destruct (Np.getitem a x) as [y|e] eqn:Hx; [by right|].
    left. by apply getitem_raise in Hx as [-> _].
  - exists s. split; [done|]. by apply getitem_out_of_bounds.
Qed.

Lemma take_in_bounds {A} (a : list A) (idx : list Z) :
  Forall (fun s => - Z.of_nat (length a) <= s < Z.of_nat (length a)) idx ->
  exists out, Np.take a idx = Ok out.
Proof.
  intros H. apply mapR_exists. eapply Forall_impl; [exact H|].
  intros s Hs. simpl in Hs.
  destruct (Np.getitem a s) as [x|e] eqn:Hx; [eauto|].
  apply getitem_raise in Hx as [_ Hx]. lia.
Qed.


Lemma assign_lookup_last {A} (kvs : list (nat * A)) (a : list A)
    (p k : nat) (v : A) :
  kvs !! p = Some (k, v) -> (k < length a)%nat ->
  (forall q k' v', (p < q)%nat -> kvs !! q = Some (k', v') -> k' <> k) ->
  Np.assign a kvs !! k = Some v.
Proof.
  revert a p; induction kvs as [|[k0 v0] kvs IH]; intros a p Hp Hk Hlast;
    simpl in *; [done|].
  destruct p as [|p]; simpl in Hp.
  - injection Hp as -> ->. rewrite assign_lookup_other.
    + by apply list_lookup_insert_eq.
    + intros Hin. apply list_elem_of_fmap in Hin as ([k' v'] & Heq & Hin).
      simpl in Heq. subst k'.
      apply list_elem_of_lookup_1 in Hin as [q Hq].
      by apply (Hlast (S q) k v'); [lia | |].
  - apply (IH _ p); [done | by rewrite length_insert |].
    intros q k' v' Hq Hkv. apply (Hlast (S q) k' v'); [lia | done].
Qed.

Lemma assign_lookup_inv {A} (kvs : list (nat * A)) (a : list A)
    (k : nat) (v : A) :
  Np.assign a kvs !! k = Some v ->
  a !! k = Some v \/ exists p, kvs !! p = Some (k, v).
Proof.
  revert a; induction kvs as [|[k0 v0] kvs IH]; intros a H; simpl in *;
    [by left|].
  destruct (IH _ H) as [Hins|[p Hp]].
  - apply list_lookup_insert_Some in Hins as [(-> & -> & _)|[_ Ha]].
    + right. by exists 0%nat.
    + by left.
  - right. by exists (S p).
Qed.

(** ** The full-to-active map for any active set that is accepted *)

Lemma build_full2active_inv (n : nat) (aset f2a : list Z) :
  build_full2active n aset = Ok f2a ->
  exists ks,
    mapR (Np.norm_index n) aset = Ok ks /\
    f2a = Np.assign (replicate n (-1)) (zip ks (Np.arange (length aset))).
Proof.
  unfold build_full2active, Np.put, Np.broadcast_to.
  rewrite arange_length, Nat.eqb_refl, length_replicate. simpl.
  intros H. apply bindR_ok in H as (ks & Hks & H). injection H as <-.
  by exists ks.
Qed.

Lemma zip_arange_lookup (ks : list nat) (p k : nat) (v : Z) :
  zip ks (Np.arange (length ks)) !! p = Some (k, v) <->
  ks !! p = Some k /\ v = Z.of_nat p.
Proof.
  split.
  - intros H. apply lookup_zip_with_Some in H
      as (k' & v' & [= <- <-] & Hk & Hv). split; [done|].
    apply lookup_lt_Some in Hk as Hlt.
    rewrite arange_lookup in Hv by done. by injection Hv.
  - intros [Hk ->]. apply lookup_zip_with_Some.
    exists k, (Z.of_nat p). split; [done|]. split; [done|].
    apply arange_lookup. by eapply lookup_lt_Some.
Qed.

(** X1. Whatever active set the constructor accepts (negative labels read
    from the end, repeated labels allowed), the full-to-active map has one
    entry per full state; the state a label denotes is mapped to the
    position of the last label that denotes it, and a state no label
    denotes is mapped to [-1]. *)
Theorem full2active_of_accepted_set (a : init_args) (m : EstimatedMSM) :
  __init__ a = Ok m ->
  let n := _nstates_full m in
  length (_full2active m) = n /\
  (forall (i : nat) (s : Z) (k : nat),
      _active_set m !! i = Some s -> Np.norm_index n s = Ok k ->
      (forall (j : nat) (s' : Z),
          (i < j)%nat -> _active_set m !! j = Some s' ->
          Np.norm_index n s' <> Ok k) ->
      _full2active m !! k = Some (Z.of_nat i)) /\
  (forall k : nat,
      (k < n)%nat ->
      (forall s, s ∈ _active_set m -> Np.norm_index n s <> Ok k) ->
      _full2active m !! k = Some (-1)).
Proof.
  intros Hm. apply init_ok_inv in Hm.
  destruct Hm as (Hb & _ & _ & _ & Ha & _ & _ & _ & _ & _ & Hn & _).
  rewrite Hn, Ha. simpl.
  apply build_full2active_inv in Hb as (ks & Hks & ->).
  pose proof (mapR_length _ _ _ Hks) as Hlen. rewrite <- Hlen.
  split; [by rewrite assign_length, length_replicate|]. split.
  - intros i s k Hs Hk Hlast.
    destruct (mapR_lookup _ _ _ _ _ Hks Hs) as (k' & Hk' & Hnorm).
    assert (k' = k) as -> by congruence.
    apply (assign_lookup_last _ _ i).
    + by apply zip_arange_lookup.
    + rewrite length_replicate. by eapply norm_index_lt.
    + intros q k' v' Hq Hkv ->.
      apply zip_arange_lookup in Hkv as [Hkq _].
      destruct (mapR_lookup_inv _ _ _ _ _ Hks Hkq) as (s' & Hs' & Hnorm').
      by apply (Hlast q s').
  - intros k Hk Hnone. rewrite assign_lookup_other.
    + apply lookup_replicate_2. lia.
    + intros Hin. apply list_elem_of_fmap in Hin as ([k' v'] & Heq & Hin).
      simpl in Heq. subst k'.
      apply list_elem_of_lookup_1 in Hin as [q Hq].
      apply zip_arange_lookup in Hq as [Hkq _].
      destruct (mapR_lookup_inv _ _ _ _ _ Hks Hkq) as (s' & Hs' & Hnorm').
      apply (Hnone s'); [by eapply list_elem_of_lookup_2 | done].
Qed.

Lemma full2active_of_accepted_set_witness :
  exists m,
    __init__ args_repeated_label = Ok m /\
    _full2active m !! 1%nat = Some 2 /\
    _full2active m = [1; 2].
Proof.
  eexists. split; [reflexivity|]. split; [|reflexivity].
  match goal with
  | |- _full2active ?m !! _ = _ =>
      destruct (full2active_of_accepted_set args_repeated_label m eq_refl)
        as (_ & Hlast & _)
  end.
  apply (Hlast 2%nat 1 1%nat); [reflexivity | reflexivity|].
  intros [|[|[|j]]] s' Hj Hs'; try lia; discriminate.
Defined.

Lemma build_full2active_entries (n : nat) (aset f2a : list Z) :
  build_full2active n aset = Ok f2a ->
  length f2a = n /\
  forall (k : nat) (v : Z),
    f2a !! k = Some v ->
    v = -1 \/
    (0 <= v < Z.of_nat (length aset) /\
     exists s, Np.getitem aset v = Ok s /\ Np.norm_index n s = Ok k).
Proof.
  intros Hb. apply build_full2active_inv in Hb as (ks & Hks & ->).
  pose proof (mapR_length _ _ _ Hks) as Hlen.
  split; [by rewrite assign_length, length_replicate|].
  intros k v Hv. rewrite <- Hlen in Hv.
  apply assign_lookup_inv in Hv as [Hv|[p Hp]].
  - left. by apply lookup_replicate in Hv as [-> _].
  - right. apply zip_arange_lookup in Hp as [Hkp ->].
    destruct (mapR_lookup_inv _ _ _ _ _ Hks Hkp) as (s & Hs & Hnorm).
    apply lookup_lt_Some in Hs as Hlt.
    split; [lia|]. exists s. split; [|done].
    apply getitem_in_range; [lia|]. by rewrite Nat2Z.id.
Qed.

(** X2. Round trip through the map: every entry of the full-to-active map
    of a model the constructor returns is [-1] or a position of the
    active set, and the label at that position denotes the state the
    entry belongs to. *)
Theorem full2active_entries (a : init_args) (m : EstimatedMSM) :
  __init__ a = Ok m ->
  forall (k : nat) (v : Z),
    _full2active m !! k = Some v ->
    v = -1 \/
    (0 <= v < Z.of_nat (length (_active_set m)) /\
     exists s, Np.getitem (_active_set m) v = Ok s /\
               Np.norm_index (_nstates_full m) s = Ok k).
Proof.
  intros Hm k v Hv. apply init_ok_inv in Hm.
  destruct Hm as (Hb & _ & _ & _ & Ha & _ & _ & _ & _ & _ & Hn & _).
  rewrite Hn, Ha.
  by apply (build_full2active_entries _ _ _ Hb).
Qed.

Lemma full2active_entries_witness :
  exists m,
    __init__ args_five_states = Ok m /\
    _full2active m !! 4%nat = Some 2 /\
    Np.getitem (_active_set m) 2 = Ok 4.
Proof.
  eexists. split; [reflexivity|]. split; [reflexivity|].
  match goal with
  | |- Np.getitem (_active_set ?m) _ = _ =>
      destruct (full2active_entries args_five_states m eq_refl 4%nat 2
                  eq_refl) as [H|(_ & s & Hs & Hnorm)]
  end.
  - discriminate.
  - apply norm_index_nonneg in Hnorm as ->; [exact Hs|].
    vm_compute in Hs. by injection Hs as <-.
Defined.

(** ** Active trajectories: entries, failure, recomputation *)

Lemma dtrajs_active_loop_ok_inv (f2a : list Z) (dtrajs acc out st : list (list Z)) :
  dtrajs_active_loop f2a dtrajs acc = (Ok out, st) ->
  exists outs, mapR (Np.take f2a) dtrajs = Ok outs /\
               out = acc ++ outs /\ st = out.
Proof.
  revert acc; induction dtrajs as [|d ds IH]; simpl; intros acc H.
  - injection H as <- <-. exists []. by rewrite app_nil_r.
  - destruct (Np.take f2a d) as [o|e]; [|discriminate].
    apply IH in H as (outs & -> & -> & ->). simpl.
    exists (o :: outs). by rewrite <- app_assoc.
Qed.

Lemma dtrajs_active_loop_raise (f2a : list Z)
    (pre post mapped acc : list (list Z)) (d : list Z) (e : exn) :
  mapR (Np.take f2a) pre = Ok mapped -> Np.take f2a d = Raise e ->
  dtrajs_active_loop f2a (pre ++ d :: post) acc = (Raise e, acc ++ mapped).
Proof.
  revert mapped acc; induction pre as [|p pre IH]; simpl;
    intros mapped acc Hpre Hd.
  - injection Hpre as <-. by rewrite Hd, app_nil_r.
  - apply bindR_ok in Hpre as (o & Ho & Hpre).
    apply bindR_ok in Hpre as (os & Hos & Hpre). injection Hpre as <-.
    rewrite Ho, (IH os) by done. by rewrite <- app_assoc.
Qed.

(** X3. When [discrete_trajectories_active] returns on a constructed
    model, there is one output array per trajectory and every entry is
    [-1] or a position of the active set whose label denotes the same
    full state as the frame's label. *)
Theorem discrete_trajectories_active_entries (m : EstimatedMSM)
    (out : list (list Z)) :
  constructed m ->
  fst (discrete_trajectories_active m) = Ok out ->
  length out = length (_dtrajs_full m) /\
  forall (i t : nat) (o : list Z) (v : Z),
    out !! i = Some o -> o !! t = Some v ->
    exists (dtraj : list Z) (s : Z) (k : nat),
      _dtrajs_full m !! i = Some dtraj /\ dtraj !! t = Some s /\
      Np.norm_index (_nstates_full m) s = Ok k /\
      (v = -1 \/
       (0 <= v < Z.of_nat (length (_active_set m)) /\
        exists s', Np.getitem (_active_set m) v = Ok s' /\
                   Np.norm_index (_nstates_full m) s' = Ok k)).
Proof.
  intros (Hest & _ & Hb).
  unfold discrete_trajectories_active, _check_is_estimated. rewrite Hest.
  destruct (dtrajs_active_loop _ _ _) as [r st] eqn:Hloop. simpl.
  intros ->. apply dtrajs_active_loop_ok_inv in Hloop as (outs & Houts & -> & _).
  simpl. destruct (build_full2active_entries _ _ _ Hb) as [Hlen Hentries].
  split; [by eapply mapR_length|].
  intros i t o v Ho Hv.
  destruct (mapR_lookup_inv _ _ _ _ _ Houts Ho) as (dtraj & Hd & Htake).
  destruct (mapR_lookup_inv _ _ _ _ _ Htake Hv) as (s & Hs & Hget).
  apply getitem_norm in Hget as (k & Hk & Hkv). rewrite Hlen in Hk.
  exists dtraj, s, k. repeat (split; [done|]). by apply Hentries.
Qed.

Lemma discrete_trajectories_active_entries_witness :
  exists m,
    __init__ args_negative_label = Ok m /\
    fst (discrete_trajectories_active m) = Ok [[0; 0]] /\
    Np.getitem (_active_set m) 0 = Ok (-1) /\
    Np.norm_index (_nstates_full m) (-1) = Ok 1%nat /\
    Np.norm_index (_nstates_full m) 1 = Ok 1%nat.
Proof.
  eexists. split; [reflexivity|]. split; [reflexivity|].
  match goal with
  | |- Np.getitem (_active_set ?m) _ = _ /\ _ =>
      destruct (discrete_trajectories_active_entries m [[0; 0]])
        as [_ Hentries];
        [by apply (init_constructed args_negative_label) | reflexivity |]
  end.
  destruct (Hentries 0%nat 0%nat [0; 0] 0 eq_refl eq_refl)
    as (dtraj & s & k & Hd & Hs & Hk & [Hv|(_ & s' & Hs' & Hk')]);
    [discriminate|].
  injection Hd as <-. injection Hs as <-.
  vm_compute in Hs'. injection Hs' as <-.
  vm_compute in Hk. injection Hk as <-.
  split; [reflexivity|]. split; [exact Hk' | reflexivity].
Defined.

(** X4. If a trajectory holds a label that is out of bounds for the
    full-to-active map and the trajectories before it hold none,
    [discrete_trajectories_active] raises [IndexError] and leaves in
    [_dtrajs_active] the mapped trajectories it got to, not the complete
    list and not what was stored before. *)
Theorem discrete_trajectories_active_failure (m : EstimatedMSM)
    (pre post : list (list Z)) (d : list Z) (s : Z) :
  let n := Z.of_nat (length (_full2active m)) in
  _is_estimated m = true ->
  _dtrajs_full m = pre ++ d :: post ->
  Forall (Forall (fun x => - n <= x < n)) pre ->
  s ∈ d -> s < - n \/ n <= s ->
  exists mapped,
    mapR (Np.take (_full2active m)) pre = Ok mapped /\
    length mapped = length pre /\
    discrete_trajectories_active m
      = (Raise IndexError, set_dtrajs_active m (Some mapped)).
Proof.
  intros n Hest Hd Hpre Hin Hs.
  destruct (mapR_exists (Np.take (_full2active m)) pre) as [mapped Hmapped].
  { eapply Forall_impl; [exact Hpre|]. intros p Hp. by apply take_in_bounds. }
  exists mapped. split; [done|]. split; [by eapply mapR_length|].
  unfold discrete_trajectories_active, _check_is_estimated.
  rewrite Hest, Hd.
  rewrite (dtrajs_active_loop_raise _ _ _ mapped [] d IndexError);
    [done | done |].
  by eapply take_out_of_bounds.
Qed.

Lemma discrete_trajectories_active_failure_witness :
  exists m,
    __init__ args_bad_frame = Ok m /\
    discrete_trajectories_active m
      = (Raise IndexError, set_dtrajs_active m (Some [[0; 1]])).
Proof.
  eexists. split; [reflexivity|].
  match goal with
  | |- discrete_trajectories_active ?m0 = _ =>
      destruct (discrete_trajectories_active_failure m0 [[0; 2]] [[1]]
                  [4; 7] 7) as (mapped & Hmapped & _ & Heq)
  end.
  - reflexivity.
  - reflexivity.
  - apply Forall_cons; split; [|apply Forall_nil_2].
    repeat (apply Forall_cons; split; [simpl; lia|]). apply Forall_nil_2.
  - solve_elem.
  - right. simpl. lia.
  - rewrite Heq. vm_compute in Hmapped. by injection Hmapped as <-.
Defined.

(** X5. [discrete_trajectories_active] computes its result anew on every
    access: what [_dtrajs_active] holds does not matter to the result or
    to the attributes afterwards, and a second access returns the same
    result and leaves the same attributes as the first. *)
Theorem discrete_trajectories_active_recomputed (m : EstimatedMSM)
    (stored : option (list (list Z))) :
  discrete_trajectories_active (snd (discrete_trajectories_active m))
    = discrete_trajectories_active m /\
  (_is_estimated m = true ->
   discrete_trajectories_active (set_dtrajs_active m stored)
     = discrete_trajectories_active m).
Proof.
  unfold discrete_trajectories_active, _check_is_estimated.
  destruct m as [b l c aset d dt Cf Ca cs n f2a est da asi]. simpl.
  destruct est; simpl.
  - destruct (dtrajs_active_loop f2a d []) as [r acc] eqn:Hloop. simpl.
    unfold set_dtrajs_active. simpl. rewrite ?Hloop. split; [done|].
    intros _. by rewrite ?Hloop.
  - split; [done | discriminate].
Qed.

Lemma discrete_trajectories_active_recomputed_witness :
  exists m,
    __init__ args_five_states = Ok m /\
    discrete_trajectories_active (set_dtrajs_active m (Some [[5]]))
      = discrete_trajectories_active m.
Proof.
  eexists. split; [reflexivity|].
  match goal with
  | |- discrete_trajectories_active (set_dtrajs_active ?m ?v) = _ =>
      apply (proj2 (discrete_trajectories_active_recomputed m v))
  end.
  reflexivity.
Defined.

(** ** Trajectory weights: shape, values, failures, the divisor *)

Lemma put_length {A} (a a' : list A) (idx : list Z) (vals : list A) :
  Np.put a idx vals = Ok a' -> length a' = length a.
Proof.
  unfold Np.put. intros H.
  apply bindR_ok in H as (vs & _ & H). apply bindR_ok in H as (ks & _ & H).
  injection H as <-. apply assign_length.
Qed.

Lemma statdist_full_inv (m : EstimatedMSM) (sd : list float) :
  statdist_full m = Ok sd ->
  _is_estimated m = true /\
  Np.put (replicate (_nstates_full m) 0%float) (_active_set m)
         (stationary_distribution (base m)) = Ok sd /\
  length sd = _nstates_full m.
Proof.
  unfold statdist_full, active_set, _check_is_estimated.
  destruct (_is_estimated m); simpl; [|discriminate].
  intros H. split; [done|]. split; [done|].
  apply put_length in H. by rewrite length_replicate in H.
Qed.

Lemma unnormalized_weights_unfold (m : EstimatedMSM) (sd : list float) :
  statdist_full m = Ok sd ->
  unnormalized_weights m = weights_loop sd (_dtrajs_full m) [] 0%float.
Proof.
  intros Hsd. pose proof (statdist_full_inv _ _ Hsd) as (Hest & _ & _).
  unfold unnormalized_weights, discrete_trajectories_full,
    _check_is_estimated.
  by rewrite Hest, Hsd.
Qed.

Lemma trajectory_weights_unfold (m : EstimatedMSM) (sd : list float) :
  statdist_full m = Ok sd ->
  trajectory_weights m =
    do Ww <- weights_loop sd (_dtrajs_full m) [] 0%float;
    Ok (map (map (fun x => (x / snd Ww)%float)) (fst Ww)).
Proof.
  intros Hsd. unfold trajectory_weights.
  by rewrite (unnormalized_weights_unfold _ _ Hsd).
Qed.

(** X6. Whenever [trajectory_weights] returns, it returns one array per
    trajectory, of the trajectory's length, and the weight of a frame is
    the entry of the expanded stationary distribution at the frame's
    label (read as numpy reads an index) divided by the total. *)
Theorem trajectory_weights_shape (m : EstimatedMSM)
    (out : list (list float)) :
  trajectory_weights m = Ok out ->
  exists (sd : list float) (wtot : float),
    statdist_full m = Ok sd /\ grand_total m = Ok wtot /\
    length out = length (_dtrajs_full m) /\
    forall (i : nat) (dtraj : list Z),
      _dtrajs_full m !! i = Some dtraj ->
      exists o,
        out !! i = Some o /\ length o = length dtraj /\
        forall (t : nat) (s : Z),
          dtraj !! t = Some s ->
          exists p, Np.getitem sd s = Ok p /\
                    o !! t = Some (p / wtot)%float.
Proof.
  intros Hout.
  apply trajectory_weights_inv in Hout as (W & wtot & HW & Htot & ->).
  apply unnormalized_weights_inv in HW as (sd & Hest & Hput & HW).
  exists sd, wtot. split.
  { unfold statdist_full, active_set, _check_is_estimated.
    by rewrite Hest. }
  split; [done|]. split; [rewrite length_map; by eapply mapR_length|].
  intros i dtraj Hi.
  destruct (mapR_lookup _ _ _ _ _ HW Hi) as (w & Hw & Htake).
  exists (map (fun x => (x / wtot)%float) w).
  split; [by rewrite list_lookup_fmap, Hw|].
  split; [rewrite length_map; by eapply mapR_length|].
  intros t s Ht.
  destruct (mapR_lookup _ _ _ _ _ Htake Ht) as (p & Hp & Hget).
  exists p. split; [done|]. by rewrite list_lookup_fmap, Hp.
Qed.

Lemma trajectory_weights_shape_witness :
  exists m out,
    __init__ args_negative_label = Ok m /\
    trajectory_weights m = Ok out /\
    out = [[1 / 2; 1 / 2]]%float /\
    exists (sd : list float) (wtot : float),
      statdist_full m = Ok sd /\ grand_total m = Ok wtot /\
      length out = length (_dtrajs_full m) /\
      forall (i : nat) (dtraj : list Z),
        _dtrajs_full m !! i = Some dtraj ->
        exists o,
          out !! i = Some o /\ length o = length dtraj /\
          forall (t : nat) (s : Z),
            dtraj !! t = Some s ->
            exists p, Np.getitem sd s = Ok p /\
                      o !! t = Some (p / wtot)%float.
Proof.
  eexists _, _. split; [reflexivity|].
  split; [vm_compute; reflexivity|]. split; [vm_compute; reflexivity|].
  apply trajectory_weights_shape. vm_compute. reflexivity.
Defined.

(** X7. For a valid active set and a stationary distribution with one
    entry per active state, the weight [trajectory_weights] returns for a
    frame whose label is the [k]-th active label is the [k]-th stationary
    probability divided by the total. *)
Theorem active_frames_weigh_stationary (m : EstimatedMSM)
    (out : list (list float)) (wtot : float) :
  valid_active_set (_nstates_full m) (_active_set m) ->
  length (stationary_distribution (base m)) = length (_active_set m) ->
  trajectory_weights m = Ok out -> grand_total m = Ok wtot ->
  forall (i t k : nat) (dtraj : list Z) (s : Z),
    _dtrajs_full m !! i = Some dtraj -> dtraj !! t = Some s ->
    _active_set m !! k = Some s ->
    exists o p,
      out !! i = Some o /\
      stationary_distribution (base m) !! k = Some p /\
      o !! t = Some (p / wtot)%float.
Proof.
  intros Hv Hlen Hout Htot i t k dtraj s Hi Ht Hk.
  apply trajectory_weights_inv in Hout as (W & wtot' & HW & Htot' & ->).
  rewrite Htot in Htot'. injection Htot' as <-.
  apply unnormalized_weights_inv in HW as (sd & _ & Hput & HW).
  destruct (mapR_lookup _ _ _ _ _ HW Hi) as (w & Hw & Htake).
  destruct (mapR_lookup _ _ _ _ _ Htake Ht) as (x & Hx & Hget).
  pose proof Hv as [_ Hrange]. rewrite Forall_forall in Hrange.
  pose proof (Hrange _ (list_elem_of_lookup_2 _ _ _ Hk)) as Hs.
  apply getitem_nonneg_inv in Hget; [|lia].
  apply put_valid_spec in Hput as (vs & Hvs & _ & Hkey & _);
    [|by rewrite length_replicate].
  unfold Np.broadcast_to in Hvs. rewrite Hlen, Nat.eqb_refl in Hvs.
  injection Hvs as <-.
  destruct (lookup_lt_is_Some_2 (stationary_distribution (base m)) k)
    as [p Hp].
  { rewrite Hlen. by eapply lookup_lt_Some. }
  rewrite (Hkey k s p Hk Hp) in Hget. injection Hget as <-.
  exists (map (fun x => (x / wtot)%float) w), p.
  split; [by rewrite list_lookup_fmap, Hw|]. split; [done|].
  by rewrite list_lookup_fmap, Hx.
Qed.

Lemma active_frames_weigh_stationary_witness :
  exists m out,
    __init__ args_five_states = Ok m /\
    trajectory_weights m = Ok out /\
    exists o p,
      out !! 1%nat = Some o /\
      stationary_distribution (base m) !! 2%nat = Some p /\
      o !! 0%nat = Some (p / 3)%float.
Proof.
  eexists _, _. split; [reflexivity|].
  split; [vm_compute; reflexivity|].
  apply (active_frames_weigh_stationary _ _ 3%float) with (dtraj := [4; 0; 2; 3]) (s := 4);
    [exact valid_active_set_five | reflexivity ..].
Defined.

Lemma is_rectangular_same {A} (X : list (list A)) (L : nat) :
  (forall w, w ∈ X -> length w = L) -> Np.is_rectangular X = true.
Proof.
  destruct X as [|w0 X]; simpl; intros H; [done|].
  apply forallb_forall. intros w Hw. apply Nat.eqb_eq.
  rewrite (H w0) by apply list_elem_of_here.
  apply H, list_elem_of_further. by apply list_elem_of_In.
Qed.

Lemma is_rectangular_inv {A} (X : list (list A)) (w w' : list A) :
  Np.is_rectangular X = true -> w ∈ X -> w' ∈ X -> length w = length w'.
Proof.
  destruct X as [|w0 X]; simpl; intros H Hw Hw'.
  - by apply elem_of_nil in Hw.
  - rewrite forallb_forall in H.
    assert (forall x, x ∈ w0 :: X -> length x = length w0) as Hall.
    { intros x [->|Hx]%elem_of_cons; [done|].
      apply Nat.eqb_eq, H. by apply list_elem_of_In. }
    by rewrite (Hall w), (Hall w').
Qed.

Lemma weights_loop_same_length (sd : list float) (L : nat)
    (ds : list (list Z)) :
  forall (W ws : list (list float)) (wtot : float),
    mapR (Np.take sd) ds = Ok ws ->
    (forall w, w ∈ W ++ ws -> length w = L) ->
    exists wtot', weights_loop sd ds W wtot = Ok (W ++ ws, wtot').
Proof.
  induction ds as [|d ds IH]; simpl; intros W ws wtot Hws Hlen.
  - injection Hws as <-. exists wtot. by rewrite app_nil_r.
  - apply bindR_ok in Hws as (w & Hw & Hws).
    apply bindR_ok in Hws as (ws' & Hws' & Hws). injection Hws as <-.
    rewrite Hw. simpl. unfold Np.sum_list.
    rewrite (is_rectangular_same _ L); simpl.
    + destruct (IH (W ++ [w]) ws'
                  (wtot + Np.sum1 (concat (W ++ [w])))%float Hws')
        as [wtot' Hloop].
      { intros x Hx. apply Hlen. by rewrite <- app_assoc in Hx. }
      exists wtot'. rewrite Hloop. by rewrite <- app_assoc.
    + intros x Hx. apply Hlen. rewrite elem_of_app in Hx.
      rewrite elem_of_app. destruct Hx as [Hx|Hx]; [by left|].
      right. apply list_elem_of_singleton in Hx as ->.
      apply list_elem_of_here.
Qed.

Lemma weights_loop_rectangular (sd : list float) (ds : list (list Z)) :
  forall (W W' : list (list float)) (wtot wtot' : float),
    weights_loop sd ds W wtot = Ok (W', wtot') -> ds <> [] ->
    Np.is_rectangular W' = true.
Proof.
  induction ds as [|d ds IH]; simpl; intros W W' wtot wtot' H Hne; [done|].
  apply bindR_ok in H as (w & Hw & H).
  apply bindR_ok in H as (x & Hx & H).
  destruct ds as [|d' ds].
  - simpl in H. injection H as <- <-.
    unfold Np.sum_list in Hx.
    by destruct (Np.is_rectangular (W ++ [w])).
  - by eapply IH.
Qed.

Lemma weights_loop_raise (sd : list float) (ds : list (list Z)) :
  forall (W : list (list float)) (wtot : float) (e : exn),
    weights_loop sd ds W wtot = Raise e ->
    (e = IndexError /\ mapR (Np.take sd) ds = Raise IndexError) \/
    e = ValueError.
Proof.
  induction ds as [|d ds IH]; simpl; intros W wtot e H; [discriminate|].
  destruct (Np.take sd d) as [w|e'] eqn:Hw; simpl in *.
  - unfold Np.sum_list in H.
    destruct (Np.is_rectangular (W ++ [w])); simpl in H.
    + apply IH in H as [[He Hr]|He]; [|by right].
      left. split; [done|]. by rewrite Hr.
    + injection H as <-. by right.
  - injection H as <-. apply take_raise in Hw as Hw'. subst e'.
    left. by split.
Qed.

Lemma weights_loop_app (sd : list float) (ds1 ds2 : list (list Z)) :
  forall (W : list (list float)) (wtot : float),
    weights_loop sd (ds1 ++ ds2) W wtot =
      do Ww <- weights_loop sd ds1 W wtot;
      weights_loop sd ds2 (fst Ww) (snd Ww).
Proof.
  induction ds1 as [|d ds1 IH]; simpl; intros W wtot; [done|].
  destruct (Np.take sd d) as [w|e]; simpl; [|done].
  destruct (Np.sum_list (W ++ [w])) as [x|e]; simpl; [|done].
  apply IH.
Qed.

Lemma mapR_take_lengths {A} (a : list A) (ds : list (list Z))
    (ws : list (list A)) :
  mapR (Np.take a) ds = Ok ws ->
  forall w, w ∈ ws -> exists d, d ∈ ds /\ length w = length d.
Proof.
  intros H w Hw. apply list_elem_of_lookup_1 in Hw as [i Hi].
  destruct (mapR_lookup_inv _ _ _ _ _ H Hi) as (d & Hd & Htake).
  exists d. split; [by eapply list_elem_of_lookup_2|].
  by eapply mapR_length.
Qed.

(** X8. With the expanded stationary distribution in place and every
    frame label in bounds, [trajectory_weights] returns exactly when all
    trajectories have the same length; as soon as two lengths differ it
    raises [ValueError]. *)
Theorem trajectory_weights_needs_equal_lengths (m : EstimatedMSM)
    (sd : list float) :
  let n := Z.of_nat (_nstates_full m) in
  statdist_full m = Ok sd ->
  Forall (Forall (fun s => - n <= s < n)) (_dtrajs_full m) ->
  ((forall d d', d ∈ _dtrajs_full m -> d' ∈ _dtrajs_full m ->
                 length d = length d') ->
   exists out, trajectory_weights m = Ok out) /\
  ((exists d d', d ∈ _dtrajs_full m /\ d' ∈ _dtrajs_full m /\
                 length d <> length d') ->
   trajectory_weights m = Raise ValueError).
Proof.
  intros n Hsd Hbounds.
  pose proof (statdist_full_inv _ _ Hsd) as (_ & _ & Hlen).
  rewrite (trajectory_weights_unfold _ _ Hsd).
  destruct (mapR_exists (Np.take sd) (_dtrajs_full m)) as [ws Hws].
  { eapply Forall_impl; [exact Hbounds|]. intros d Hd.
    apply take_in_bounds. by rewrite Hlen. }
  split.
  - intros Hsame.
    destruct (_dtrajs_full m) as [|d0 ds] eqn:Hd; [simpl; eauto|].
    destruct (weights_loop_same_length sd (length d0) (d0 :: ds) [] ws
                0%float Hws) as [wtot' Hloop].
    { intros w Hw. simpl in Hw.
      destruct (mapR_take_lengths _ _ _ Hws w Hw) as (d & Hin & ->).
      apply Hsame; [done | apply list_elem_of_here]. }
    rewrite Hloop. simpl. eauto.
  - intros (d & d' & Hd & Hd' & Hne).
    destruct (weights_loop sd (_dtrajs_full m) [] 0%float)
      as [[W wtot']|e] eqn:Hloop; simpl.
    + exfalso. apply weights_loop_rectangular in Hloop as Hrect.
      2: { intros Hnil. rewrite Hnil in Hd. by apply elem_of_nil in Hd. }
      apply weights_loop_inv in Hloop as (ws' & Hws' & ->).
      rewrite Hws in Hws'. injection Hws' as <-. simpl in Hrect.
      apply list_elem_of_lookup_1 in Hd as [i Hi].
      apply list_elem_of_lookup_1 in Hd' as [j Hj].
      destruct (mapR_lookup _ _ _ _ _ Hws Hi) as (w & Hw & Htw).
      destruct (mapR_lookup _ _ _ _ _ Hws Hj) as (w' & Hw' & Htw').
      apply mapR_length in Htw, Htw'. apply Hne.
      rewrite <- Htw, <- Htw'.
      eapply is_rectangular_inv; [exact Hrect | |];
        by eapply list_elem_of_lookup_2.
    + apply weights_loop_raise in Hloop as [[_ Hr]|He]; [congruence|].
      by subst e.
Qed.

Lemma bounds_two_states (dtrajs : list (list Z)) :
  forallb (forallb (fun s => (-2 <=? s) && (s <? 2))) dtrajs = true ->
  Forall (Forall (fun s => - Z.of_nat 2 <= s < Z.of_nat 2)) dtrajs.
Proof.
  intros H. apply Forall_forall. intros d Hd. apply Forall_forall.
  intros s Hs. rewrite forallb_forall in H.
  apply list_elem_of_In in Hd, Hs. specialize (H d Hd).
  rewrite forallb_forall in H. specialize (H s Hs).
  apply andb_true_iff in H as [H1 H2].
  apply Z.leb_le in H1. apply Z.ltb_lt in H2. simpl. lia.
Defined.

Lemma trajectory_weights_needs_equal_lengths_witness :
  (exists m,
      __init__ args_two_trajs = Ok m /\
      exists out, trajectory_weights m = Ok out) /\
  (exists m,
      __init__ args_ragged_trajs = Ok m /\
      trajectory_weights m = Raise ValueError).
Proof.
  split.
  - eexists. split; [reflexivity|].
    match goal with
    | |- exists out, trajectory_weights ?m = _ =>
        apply (proj1 (trajectory_weights_needs_equal_lengths m
                        [0.5; 0.5]%float eq_refl
                        (bounds_two_states [[0; 1]; [1; 0]] eq_refl)))
    end.
    intros d d' Hd Hd'. simpl in Hd, Hd'.
    repeat (apply elem_of_cons in Hd as [Hd|Hd]; [subst d|]);
      try (by apply elem_of_nil in Hd);
      repeat (apply elem_of_cons in Hd' as [Hd'|Hd']; [subst d'|]);
      try (by apply elem_of_nil in Hd'); reflexivity.
  - eexists. split; [reflexivity|].
    match goal with
    | |- trajectory_weights ?m = _ =>
        apply (proj2 (trajectory_weights_needs_equal_lengths m
                        [0.5; 0.5]%float eq_refl
                        (bounds_two_states [[0; 1]; [1; 0; 1]] eq_refl)))
    end.
    exists [0; 1], [1; 0; 1]. split; [solve_elem|]. split; [solve_elem|].
    simpl. lia.
Defined.

Lemma weights_loop_total (sd : list float) (ds : list (list Z)) :
  forall (W W' : list (list float)) (wtot wtot' : float),
    weights_loop sd ds W wtot = Ok (W', wtot') ->
    wtot' = prefix_sums_total W' (S (length W)) (length ds) wtot.
Proof.
  induction ds as [|d ds IH]; simpl; intros W W' wtot wtot' H.
  - by injection H as _ <-.
  - apply bindR_ok in H as (w & Hw & H).
    apply bindR_ok in H as (x & Hx & H).
    unfold Np.sum_list in Hx.
    destruct (Np.is_rectangular (W ++ [w])); [|discriminate].
    injection Hx as <-.
    pose proof (weights_loop_inv _ _ _ _ _ _ H) as (ws & _ & HW').
    apply IH in H. rewrite H. unfold prefix_sums_total. simpl.
    rewrite length_app. simpl. rewrite Nat.add_1_r.
    replace (take (S (length W)) W') with (W ++ [w]); [done|].
    rewrite HW'. symmetry.
    replace (S (length W)) with (length (W ++ [w]))
      by (rewrite length_app; simpl; lia).
    apply take_app_length.
Qed.

(** X9. The number [trajectory_weights] divides by is the sum, over every
    initial segment of the list of weight arrays, of all weights in that
    segment: with one trajectory the sum of its weights, with more than
    one the weights of earlier trajectories counted once per later
    trajectory as well. *)
Theorem grand_total_is_sum_of_prefix_sums (m : EstimatedMSM)
    (W : list (list float)) (wtot : float) :
  unnormalized_weights m = Ok (W, wtot) ->
  length W = length (_dtrajs_full m) /\
  wtot = prefix_sums_total W 1 (length W) 0%float /\
  (forall w, W = [w] -> wtot = (0 + Np.sum1 w)%float) /\
  (forall w1 w2, W = [w1; w2] ->
     wtot = (0 + Np.sum1 w1 + Np.sum1 (w1 ++ w2))%float).
Proof.
  intros HW.
  pose proof (unnormalized_weights_inv _ _ _ HW) as (sd & Hest & Hput & Hws).
  assert (statdist_full m = Ok sd) as Hsd.
  { unfold statdist_full, active_set, _check_is_estimated.
    by rewrite Hest. }
  rewrite (unnormalized_weights_unfold _ _ Hsd) in HW.
  apply weights_loop_total in HW. simpl in HW.
  pose proof (mapR_length _ _ _ Hws) as Hlen.
  split; [done|]. rewrite Hlen. split; [done|]. split.
  - intros w ->. simpl in Hlen. rewrite <- Hlen in HW.
    rewrite HW. unfold prefix_sums_total. simpl. by rewrite app_nil_r.
  - intros w1 w2 ->. simpl in Hlen. rewrite <- Hlen in HW.
    rewrite HW. unfold prefix_sums_total. simpl. by rewrite !app_nil_r.
Qed.

Lemma grand_total_is_sum_of_prefix_sums_witness :
  exists m W,
    __init__ args_two_trajs = Ok m /\
    unnormalized_weights m = Ok (W, 3%float) /\
    3%float = prefix_sums_total W 1 (length W) 0%float.
Proof.
  eexists _, _. split; [reflexivity|].
  match goal with
  | |- unnormalized_weights ?m = _ /\ _ => pose (m0 := m)
  end.
  split; [vm_compute; reflexivity|].
  match goal with
  | |- _ = prefix_sums_total ?W _ _ _ =>
      destruct (grand_total_is_sum_of_prefix_sums m0 W 3%float)
        as (_ & H & _); [vm_compute; reflexivity | exact H]
  end.
Defined.

(** X10. When the guard passes and the stationary distribution expands to
    the full set (the assignment [statdist_full[active_set] = ...]
    succeeds), if a trajectory holds a label that is out of bounds for
    the full state space, and the trajectories before it hold none and
    have one common length, [trajectory_weights] raises [IndexError]. *)
Theorem trajectory_weights_label_out_of_bounds (m : EstimatedMSM)
    (sd : list float) (pre post : list (list Z)) (d : list Z) (s : Z) :
  let n := Z.of_nat (_nstates_full m) in
  statdist_full m = Ok sd ->
  _dtrajs_full m = pre ++ d :: post ->
  Forall (Forall (fun x => - n <= x < n)) pre ->
  (forall p p', p ∈ pre -> p' ∈ pre -> length p = length p') ->
  s ∈ d -> s < - n \/ n <= s ->
  trajectory_weights m = Raise IndexError.
Proof.
  intros n Hsd Hd Hpre Hsame Hin Hs.
  pose proof (statdist_full_inv _ _ Hsd) as (_ & _ & Hlen).
  rewrite (trajectory_weights_unfold _ _ Hsd), Hd, weights_loop_app.
  destruct (mapR_exists (Np.take sd) pre) as [ws Hws].
  { eapply Forall_impl; [exact Hpre|]. intros p Hp.
    apply take_in_bounds. by rewrite Hlen. }
  assert (exists wtot', weights_loop sd pre [] 0%float = Ok (ws, wtot'))
    as [wtot' Hloop].
  { destruct pre as [|p0 pre'].
    - simpl in *. injection Hws as <-. eauto.
    - apply (weights_loop_same_length sd (length p0) _ [] ws _ Hws).
      intros w Hw. simpl in Hw.
      destruct (mapR_take_lengths _ _ _ Hws w Hw) as (p & Hp & ->).
      apply Hsame; [done | apply list_elem_of_here]. }
  rewrite Hloop. simpl.
  rewrite (take_out_of_bounds sd d s); [done | done |].
  by rewrite Hlen.
Qed.

Lemma trajectory_weights_label_out_of_bounds_witness :
  exists m,
    __init__ args_bad_frame = Ok m /\
    trajectory_weights m = Raise IndexError.
Proof.
  eexists. split; [reflexivity|].
  match goal with
  | |- trajectory_weights ?m = _ =>
      apply (trajectory_weights_label_out_of_bounds m
               [0.5; 0; 0.25; 0; 0.25]%float [[0; 2]] [[1]] [4; 7] 7)
  end.
  - reflexivity.
  - reflexivity.
  - apply Forall_cons; split; [|apply Forall_nil_2].
    repeat (apply Forall_cons; split; [simpl; lia|]). apply Forall_nil_2.
  - intros p p' Hp Hp'.
    apply list_elem_of_singleton in Hp as ->.
    by apply list_elem_of_singleton in Hp' as ->.
  - solve_elem.
  - right. simpl. lia.
Defined.

(** ** Accessors over the lifetime of a model *)

Lemma run_accessors_same_but_caches (index_states : index_builder)
    (accs : list accessor) (m : EstimatedMSM) :
  same_but_caches m (run_accessors index_states accs m).
Proof.
  unfold run_accessors. revert m.
  induction accs as [|acc accs IH]; simpl; intros m.
  - apply same_but_caches_refl.
  - eapply same_but_caches_trans; [apply run_accessor_same_but_caches|].
    apply IH.
Qed.

Lemma mapResult_raise {A B} (f : A -> B) (r : result A) (e : exn) :
  mapResult f r = Raise e -> r = Raise e.
Proof. destruct r; simpl; [discriminate | by intros [= ->]]. Qed.





(** X12. On a model the constructor returned, after any sequence of
    accessor calls, the read-only properties return the constructor's
    arguments: the lag, the number of rows of [C_full], the active set,
    the connectivity, the connected sets, the trajectories and the two
    count matrices; [largest_connected_set] returns the first connected
    set and raises [IndexError] when there is none. *)
Theorem getters_return_arguments (index_states : index_builder)
    (a : init_args) (m : EstimatedMSM) (accs : list accessor) :
  __init__ a = Ok m ->
  let m' := run_accessors index_states accs m in
  lagtime m' = Ok (arg_lag a) /\
  nstates_full m' = Ok (length (arg_C_full a)) /\
  active_set m' = Ok (arg_active_set a) /\
  connectivity m' = Ok (arg_connectivity a) /\
  connected_sets m' = Ok (arg_connected_sets a) /\
  discrete_trajectories_full m' = Ok (arg_dtrajs a) /\
  count_matrix_active m' = Ok (arg_C_active a) /\
  count_matrix_full m' = Ok (arg_C_full a) /\
  (forall c cs, arg_connected_sets a = c :: cs ->
                largest_connected_set m' = Ok c) /\
  (arg_connected_sets a = [] ->
   largest_connected_set m' = Raise IndexError).
Proof.
  intros Hm m'. apply init_ok_inv in Hm.
  destruct Hm as (_ & _ & Hl & Hc & Ha & Hd & _ & HCf & HCa & Hcs & Hn
                  & He & _).
  destruct (run_accessors_same_but_caches index_states accs m)
    as (_ & Hl' & Hc' & Ha' & Hd' & _ & HCf' & HCa' & Hcs' & Hn' & _ & He').
  fold m' in Hl', Hc', Ha', Hd', HCf', HCa', Hcs', Hn', He'.
  unfold lagtime, nstates_full, active_set, connectivity, connected_sets,
    discrete_trajectories_full, count_matrix_active, count_matrix_full,
    largest_connected_set, _check_is_estimated.
  rewrite He', He, Hl', Hc', Ha', Hd', HCf', HCa', Hcs', Hn'. simpl.
  rewrite Hl, Hc, Ha, Hd, HCf, HCa, Hcs, Hn.
  repeat (split; [reflexivity|]). split.
  - by intros c cs ->.
  - by intros ->.
Qed.

Lemma getters_return_arguments_witness :
  exists m,
    __init__ args_five_states = Ok m /\
    discrete_trajectories_full
      (run_accessors index_states
         [DiscreteTrajectoriesActive; ActiveStateIndexes] m)
      = Ok [[0; 2; 4; 1]; [4; 0; 2; 3]].
Proof.
  eexists. split; [reflexivity|].
  match goal with
  | |- discrete_trajectories_full (run_accessors _ ?accs ?m) = _ =>
      destruct (getters_return_arguments index_states args_five_states m
                  accs eq_refl) as (_ & _ & _ & _ & _ & H & _)
  end.
  exact H.
Defined.

(** X13. An access that raises leaves every attribute as it was, unless
    the accessor is [discrete_trajectories_active]; in particular a failed
    [active_state_indexes] stores no table. *)
Theorem failed_access_changes_nothing (index_states : index_builder)
    (acc : accessor) (m : EstimatedMSM) (e : exn) :
  acc <> DiscreteTrajectoriesActive ->
  fst (run_accessor index_states acc m) = Raise e ->
  snd (run_accessor index_states acc m) = m.
Proof.
  intros Hacc Hraise.
  destruct acc; try reflexivity; [done|].
  simpl in *.
  destruct (active_state_indexes index_states m) as [r m'] eqn:E.
  simpl in *. apply mapResult_raise in Hraise. subst r.
  destruct (active_state_indexes_state index_states m)
    as [H|(t & _ & Hok & _)]; rewrite E in *; simpl in *;
    [done | discriminate].
Qed.

Lemma failed_access_changes_nothing_witness :
  exists m,
    __init__ args_unvisited_state = Ok m /\
    fst (run_accessor index_states ActiveStateIndexes m)
      = Raise InvalidStateError /\
    snd (run_accessor index_states ActiveStateIndexes m) = m.
Proof.
  eexists. split; [reflexivity|]. split; [reflexivity|].
  apply (failed_access_changes_nothing index_states ActiveStateIndexes _
           InvalidStateError); [discriminate | reflexivity].
Defined.

(** ** The constructor and the accessors on references *)

Lemma init_ref_extends (h0 h1 : Heap.heap) (a : Heap.args_ref)
    (r : result Heap.self_ref) :
  Heap.init_ref h0 a = Some (r, h1) -> h0 `prefix_of` h1.
Proof.
  unfold Heap.init_ref. intros Hinit.
  destruct (Heap.deepcopy h0 (Heap.ref_active_set a)) as [[l1 g1]|] eqn:D1;
    [simpl in Hinit | discriminate].
  destruct (Heap.deepcopy g1 (Heap.ref_dtrajs a)) as [[l2 g2]|] eqn:D2;
    [simpl in Hinit | discriminate].
  destruct (Heap.deepcopy g2 (Heap.ref_C_full a)) as [[l3 g3]|] eqn:D3;
    [simpl in Hinit | discriminate].
  destruct (Heap.deepcopy g3 (Heap.ref_C_active a)) as [[l4 g4]|] eqn:D4;
    [simpl in Hinit | discriminate].
  destruct (Heap.deepcopy g4 (Heap.ref_connected_sets a)) as [[l5 g5]|]
    eqn:D5; [simpl in Hinit | discriminate].
  apply HeapFacts.deepcopy_spec in D1 as (P1 & _).
  apply HeapFacts.deepcopy_spec in D2 as (P2 & _).
  apply HeapFacts.deepcopy_spec in D3 as (P3 & _).
  apply HeapFacts.deepcopy_spec in D4 as (P4 & _).
  apply HeapFacts.deepcopy_spec in D5 as (P5 & _).
  assert (h0 `prefix_of` g5) as Q5 by (by do 4 (etrans; [eassumption|])).
  destruct (Heap.read_matrix g5 (Heap.ref_C_full a)) as [Cf|];
    [simpl in Hinit | discriminate].
  destruct (Heap.read_array g5 l1) as [aset|];
    [simpl in Hinit | discriminate].
  destruct (build_full2active (length Cf) aset) as [f2a|e].
  - injection Hinit as _ <-. etrans; [exact Q5|]. by apply prefix_app_r.
  - by injection Hinit as _ <-.
Qed.

(** X14. The constructor, whether it returns an object or raises, changes
    no object that existed before the call: every location holds what it
    held, and the arguments read as they read before. *)
Theorem init_ref_keeps_arguments (h0 h1 : Heap.heap) (a : Heap.args_ref)
    (r : result Heap.self_ref) :
  Heap.init_ref h0 a = Some (r, h1) ->
  (forall (l : nat) (o : Heap.pyobj), h0 !! l = Some o -> h1 !! l = Some o) /\
  (forall av, Heap.read_args h0 a = Some av ->
              Heap.read_args h1 a = Some av).
Proof.
  intros Hinit. apply init_ref_extends in Hinit as Hp. split.
  - intros l o Ho. by eapply prefix_lookup_Some.
  - intros av. unfold Heap.read_args.
    destruct (Heap.read_arrays h0 (Heap.ref_dtrajs a)) as [dtrajs|] eqn:Rd;
      [simpl | discriminate].
    destruct (Heap.read_array h0 (Heap.ref_active_set a)) as [aset|] eqn:Ra;
      [simpl | discriminate].
    destruct (Heap.read_arrays h0 (Heap.ref_connected_sets a)) as [csets|]
      eqn:Rc; [simpl | discriminate].
    destruct (Heap.read_matrix h0 (Heap.ref_C_full a)) as [Cf|] eqn:RCf;
      [simpl | discriminate].
    destruct (Heap.read_matrix h0 (Heap.ref_C_active a)) as [Ca|] eqn:RCa;
      [simpl | discriminate].
    intros [= <-].
    rewrite (HeapFacts.read_arrays_prefix _ _ _ _ Hp Rd). simpl.
    rewrite (HeapFacts.read_array_prefix _ _ _ _ Hp Ra). simpl.
    rewrite (HeapFacts.read_arrays_prefix _ _ _ _ Hp Rc). simpl.
    rewrite (HeapFacts.read_matrix_prefix _ _ _ _ Hp RCf). simpl.
    by rewrite (HeapFacts.read_matrix_prefix _ _ _ _ Hp RCa).
Qed.

Lemma init_ref_keeps_arguments_witness :
  exists s h1,
    Heap.init_ref Heap.heap_five_states Heap.refs_five_states
      = Some (Ok s, h1) /\
    Heap.read_args h1 Heap.refs_five_states = Some args_five_states.
Proof.
  eexists _, _. split; [vm_compute; reflexivity|].
  match goal with
  | |- Heap.read_args ?h1 _ = _ =>
      apply (proj2 (init_ref_keeps_arguments Heap.heap_five_states h1
                      Heap.refs_five_states _ eq_refl))
  end.
  reflexivity.
Defined.

Lemma init_ref_layout (h0 h1 : Heap.heap) (a : Heap.args_ref)
    (av : init_args) (s : Heap.self_ref) :
  Heap.read_args h0 a = Some av ->
  Heap.init_ref h0 a = Some (Ok s, h1) ->
  exists (m : EstimatedMSM) (n1 : nat),
    __init__ av = Ok m /\
    Heap.owned_model (length h0) h1 s m /\
    (Heap.self_active_set s < n1 <= length h1)%nat /\
    Heap.owned_arrays n1 h1 (Heap.self_dtrajs_full s) (_dtrajs_full m) /\
    Heap.owned_matrix n1 h1 (Heap.self_C_full s) (_C_full m) /\
    Heap.owned_matrix n1 h1 (Heap.self_C_active s) (_C_active m) /\
    Heap.owned_arrays n1 h1 (Heap.self_connected_sets s)
      (_connected_sets m) /\
    Heap.owned_array n1 h1 (Heap.self_full2active s) (_full2active m).
Proof.
  intros Hargs Hinit.
  destruct (HeapFacts.init_ref_spec _ _ _ _ _ Hargs Hinit) as (m & Hm & Ho).
  exists m. revert Hargs Hinit. unfold Heap.read_args, Heap.init_ref.
  intros Hargs Hinit.
  destruct (Heap.read_arrays h0 (Heap.ref_dtrajs a)) as [dtrajs|] eqn:Rd;
    [simpl in Hargs | discriminate].
  destruct (Heap.read_array h0 (Heap.ref_active_set a)) as [aset|] eqn:Ra;
    [simpl in Hargs | discriminate].
  destruct (Heap.read_arrays h0 (Heap.ref_connected_sets a)) as [csets|]
    eqn:Rc; [simpl in Hargs | discriminate].
  destruct (Heap.read_matrix h0 (Heap.ref_C_full a)) as [Cf|] eqn:RCf;
    [simpl in Hargs | discriminate].
  destruct (Heap.read_matrix h0 (Heap.ref_C_active a)) as [Ca|] eqn:RCa;
    [simpl in Hargs | discriminate].
  injection Hargs as <-.
  destruct (Heap.deepcopy h0 (Heap.ref_active_set a)) as [[l1 g1]|] eqn:D1;
    [simpl in Hinit | discriminate].
  destruct (Heap.deepcopy g1 (Heap.ref_dtrajs a)) as [[l2 g2]|] eqn:D2;
    [simpl in Hinit | discriminate].
  destruct (Heap.deepcopy g2 (Heap.ref_C_full a)) as [[l3 g3]|] eqn:D3;
    [simpl in Hinit | discriminate].
  destruct (Heap.deepcopy g3 (Heap.ref_C_active a)) as [[l4 g4]|] eqn:D4;
    [simpl in Hinit | discriminate].
  destruct (Heap.deepcopy g4 (Heap.ref_connected_sets a)) as [[l5 g5]|]
    eqn:D5; [simpl in Hinit | discriminate].
  apply HeapFacts.deepcopy_spec in D1 as (P1 & L1 & A1 & _ & _).
  apply HeapFacts.deepcopy_spec in D2 as (P2 & L2 & _ & _ & V2).
  apply HeapFacts.deepcopy_spec in D3 as (P3 & L3 & _ & M3 & _).
  apply HeapFacts.deepcopy_spec in D4 as (P4 & L4 & _ & M4 & _).
  apply HeapFacts.deepcopy_spec in D5 as (P5 & L5 & _ & _ & V5).
  pose proof (prefix_length _ _ P1) as N1.
  pose proof (prefix_length _ _ P2) as N2.
  pose proof (prefix_length _ _ P3) as N3.
  pose proof (prefix_length _ _ P4) as N4.
  pose proof (prefix_length _ _ P5) as N5.
  assert (h0 `prefix_of` g2) as Q2 by by etrans.
  assert (h0 `prefix_of` g3) as Q3 by by etrans.
  assert (h0 `prefix_of` g4) as Q4 by by etrans.
  assert (h0 `prefix_of` g5) as Q5 by by etrans.
  rewrite (HeapFacts.read_matrix_prefix _ _ _ _ Q5 RCf) in Hinit.
  simpl in Hinit.
  assert (Heap.owned_arrays (length g1) g2 l2 dtrajs) as O2.
  { destruct (V2 dtrajs) as (items & Hi & Hfresh & Hv);
      [by eapply HeapFacts.read_arrays_prefix|].
    split; [lia|]. by exists items. }
  assert (Heap.owned_matrix (length g1) g3 l3 Cf) as O3.
  { split; [lia|]. apply M3. by eapply HeapFacts.read_matrix_prefix. }
  assert (Heap.owned_matrix (length g1) g4 l4 Ca) as O4.
  { split; [lia|]. apply M4. by eapply HeapFacts.read_matrix_prefix. }
  assert (Heap.owned_arrays (length g1) g5 l5 csets) as O5.
  { destruct (V5 csets) as (items & Hi & Hfresh & Hv);
      [by eapply HeapFacts.read_arrays_prefix|].
    split; [lia|]. exists items. split; [done|]. split; [|done].
    eapply Forall_impl; [exact Hfresh|]. simpl. intros; lia. }
  assert (g1 `prefix_of` g5) as P15 by (etrans; [|exact P5]; by do 2 etrans).
  assert (g2 `prefix_of` g5) as P25 by (etrans; [|exact P5]; by etrans).
  assert (g3 `prefix_of` g5) as P35 by by etrans.
  apply (HeapFacts.owned_arrays_prefix _ _ _ _ _ P25) in O2.
  apply (HeapFacts.owned_matrix_prefix _ _ _ _ _ P35) in O3.
  apply (HeapFacts.owned_matrix_prefix _ _ _ _ _ P5) in O4.
  rewrite (HeapFacts.read_array_prefix _ _ _ _ P15 (A1 _ Ra)) in Hinit.
  simpl in Hinit. pose proof Hm as Hm0. unfold __init__ in Hm. simpl in Hm.
  destruct (build_full2active (length Cf) aset) as [f2a|e] eqn:Hb;
    [|discriminate].
  injection Hinit as <- <-. simpl in Hm. injection Hm as <-. simpl.
  exists (length g1).
  assert (g5 `prefix_of` g5 ++ [Heap.IntArray f2a]) as P6
    by by apply prefix_app_r.
  split; [exact Hm0|]. split; [exact Ho|].
  split; [rewrite length_app; simpl; lia|].
  split; [by eapply HeapFacts.owned_arrays_prefix|].
  split; [by eapply HeapFacts.owned_matrix_prefix|].
  split; [by eapply HeapFacts.owned_matrix_prefix|].
  split; [by eapply HeapFacts.owned_arrays_prefix|].
  split; [rewrite length_app; simpl; lia|].
  unfold Heap.read_array. rewrite lookup_app_r by lia.
  by rewrite Nat.sub_diag.
Qed.

(** X15. [active_set] returns the stored array itself, not a copy:
    overwriting the array behind the returned reference changes what
    [active_set] returns afterwards, exactly as the setter of the property
    would, while the number of full states and the full-to-active map, and
    with them [discrete_trajectories_active], stay as computed by the
    constructor. *)
Theorem active_set_returns_stored_array (h0 h1 : Heap.heap)
    (a : Heap.args_ref) (av : init_args) (s : Heap.self_ref) (l : nat)
    (value : list Z) :
  Heap.read_args h0 a = Some av ->
  Heap.init_ref h0 a = Some (Ok s, h1) ->
  active_set_ref s = Ok l ->
  let h2 := <[l := Heap.IntArray value]> h1 in
  exists m,
    __init__ av = Ok m /\
    Heap.snapshot h1 s = Some m /\
    Heap.snapshot h2 s = Some (set_active_set m value) /\
    forall index_states : index_builder,
      Heap.access index_states ActiveSet h2 s = Some (Ok (VArray value)) /\
      Heap.access index_states NstatesFull h2 s
        = Heap.access index_states NstatesFull h1 s /\
      Heap.access index_states DiscreteTrajectoriesActive h2 s
        = Heap.access index_states DiscreteTrajectoriesActive h1 s.
Proof.
  intros Hargs Hinit Href h2.
  destruct (init_ref_layout _ _ _ _ _ Hargs Hinit)
    as (m & n1 & Hm & Ho & Hl & Od & OCf & OCa & Oc & Of).
  pose proof Ho as (Oa & _ & _ & _ & _ & _ & Hrec).
  assert (_is_estimated m = true) as Hest.
  { apply init_ok_inv in Hm. by destruct Hm as (_&_&_&_&_&_&_&_&_&_&_&He&_). }
  assert (Heap.self_is_estimated s = true) as Hest'.
  { rewrite Hrec in Hest. exact Hest. }
  unfold active_set_ref in Href. rewrite Hest' in Href.
  injection Href as <-.
  assert (Heap.snapshot h1 s = Some m) as Hsnap1.
  { eapply HeapFacts.snapshot_agree; [exact Ho | apply HeapFacts.agree_refl]. }
  assert (Heap.agree n1 h1 h2) as Hag.
  { split; [unfold h2; by rewrite length_insert|].
    intros l' Hl'. unfold h2. apply list_lookup_insert_ne. lia. }
  assert (Heap.snapshot h2 s = Some (set_active_set m value)) as Hsnap2.
  { unfold Heap.snapshot.
    assert (Heap.read_array h2 (Heap.self_active_set s) = Some value) as ->.
    { unfold Heap.read_array, h2. rewrite list_lookup_insert_eq; [done|].
      lia. }
    simpl.
    rewrite (HeapFacts.owned_arrays_agree _ _ _ _ _ Hag Od). simpl.
    rewrite (HeapFacts.owned_matrix_agree _ _ _ _ _ Hag OCf). simpl.
    rewrite (HeapFacts.owned_matrix_agree _ _ _ _ _ Hag OCa). simpl.
    rewrite (HeapFacts.owned_arrays_agree _ _ _ _ _ Hag Oc). simpl.
    rewrite (HeapFacts.owned_array_agree _ _ _ _ _ Hag Of). simpl.
    f_equal. unfold set_active_set. destruct m. simpl in *.
    injection Hrec. intros. congruence. }
  exists m. split; [done|]. split; [done|]. split; [done|].
  intros index_states. unfold Heap.access. rewrite Hsnap1, Hsnap2. simpl.
  unfold active_set, nstates_full, discrete_trajectories_active,
    _check_is_estimated. simpl. rewrite Hest. simpl.
  split; [done|]. split; [done|].
  by destruct (dtrajs_active_loop _ _ _).
Qed.

Lemma active_set_returns_stored_array_witness :
  exists s h1 l,
    Heap.init_ref Heap.heap_five_states Heap.refs_five_states
      = Some (Ok s, h1) /\
    active_set_ref s = Ok l /\
    let h2 := <[l := Heap.IntArray [1; 3]]> h1 in
    Heap.access index_states ActiveSet h1 s = Some (Ok (VArray [0; 2; 4])) /\
    Heap.access index_states ActiveSet h2 s = Some (Ok (VArray [1; 3])) /\
    Heap.access index_states DiscreteTrajectoriesActive h2 s
      = Some (Ok (VArrays [[0; 1; 2; -1]; [2; 0; 1; -1]])).
Proof.
  eexists _, _, _. split; [vm_compute; reflexivity|].
  split; [reflexivity|]. intros h2.
  split; [reflexivity|].
  match goal with
  | h := <[ ?l := _ ]> ?h1 |- Heap.access _ _ _ ?s = _ /\ _ =>
      destruct (active_set_returns_stored_array Heap.heap_five_states h1
                  Heap.refs_five_states args_five_states s l [1; 3]
                  eq_refl eq_refl eq_refl) as (m & _ & _ & _ & Hacc)
  end.
  destruct (Hacc index_states) as (H1 & _ & H3).
  split; [exact H1|]. etrans; [exact H3|]. reflexivity.
Defined.

(** ** The coarse-graining of the test fixture *)

Lemma cg_lookup (k : nat) :
  (k < 100)%nat ->
  cg !! k = Some (if (Z.of_nat k <? 50) then 0 else 1).
Proof.
  intros Hk.
  assert (forallb (fun k => match cg !! k with
                            | Some v => v =? (if Z.of_nat k <? 50 then 0 else 1)
                            | None => false
                            end)
            (seq 0 100) = true) as H by (vm_compute; reflexivity).
  rewrite forallb_forall in H.
  specialize (H k). destruct (cg !! k) as [v|].
  - f_equal. apply Z.eqb_eq, H, in_seq. lia.
  - discriminate H. apply in_seq. lia.
Qed.

Lemma cg_length : length cg = 100%nat.
Proof. reflexivity. Qed.

(** X16. The fixture's coarse-graining [cg[obs_micro]] keeps the length
    of the trajectory and sends a microstate label in [0, 50) to
    macrostate 0 and one in [50, 100) to macrostate 1; a negative label
    down to [-100] is read from the end, and any other label makes it
    raise [IndexError]. *)
Theorem obs_macro_two_states (obs_micro : list Z) :
  (Forall (fun s => -100 <= s < 100) obs_micro ->
   obs_macro obs_micro =
     Ok (map (fun s => let k := if s <? 0 then s + 100 else s in
                       if k <? 50 then 0 else 1) obs_micro)) /\
  ((exists s, s ∈ obs_micro /\ (s < -100 \/ 100 <= s)) ->
   obs_macro obs_micro = Raise IndexError).
Proof.
  unfold obs_macro. split.
  - intros H. apply mapR_total. eapply Forall_impl; [exact H|].
    intros s Hs. simpl in Hs. apply getitem_norm. rewrite cg_length.
    destruct (Z.ltb_spec s 0).
    + exists (Z.to_nat (s + 100)). split.
      * rewrite norm_index_wrap by lia. simpl. reflexivity.
      * rewrite cg_lookup by lia. by rewrite Z2Nat.id by lia.
    + exists (Z.to_nat s). split.
      * by rewrite norm_index_in_range by lia.
      * rewrite cg_lookup by lia. by rewrite Z2Nat.id by lia.
  - intros (s & Hin & Hs). apply (take_out_of_bounds cg obs_micro s Hin).
    by rewrite cg_length.
Qed.

Lemma obs_macro_two_states_witness :
  obs_macro [0; 49; 50; 99; -1] = Ok [0; 0; 1; 1; 1] /\
  obs_macro [3; 100] = Raise IndexError.
Proof.
  split.
  - apply (proj1 (obs_macro_two_states [0; 49; 50; 99; -1])).
    repeat (apply Forall_cons; split; [lia|]). apply Forall_nil_2.
  - apply (proj2 (obs_macro_two_states [3; 100])).
    exists 100. split; [solve_elem | lia].
Defined.
